(** * Geocode resolution service (lava/bingmap/geoService.ts)

    A shallow embedding of the module state and functions of
    [geoService.ts], and the properties of the three-tier lookup, the
    hit-count eviction and the throttled FIFO dispatch.

    Conventions of the embedding.
    - A JavaScript object used as a string-keyed map is an association
      list in property-creation order ([obj]); only own properties are
      modelled, so a read is the source's for every name but those
      inherited from [Object.prototype] ([Object_prototype_names]).
    - [ILocation] objects live in a heap ([list ILocation], a reference is
      an index), because the module hands out and mutates shared objects
      ([loc.address = addr]).
    - Callbacks ([then]) are opaque identifiers: an invocation is recorded
      in the trace [delivered] together with the argument as the callback
      sees it at that instant. Callbacks do not call back into the module.
      The functions of the module are given twice: with callbacks that
      return normally, and ([..._raising]) with callbacks that can throw.
    - Strings are strings of bytes; [toLowerCase] is the source's on ASCII
      text ([ascii_text]).
    - [setTimeout], [fetch] and the promise chain are explicit: pending
      timers and in-flight requests are part of the state, and an event
      fires a timer or settles a request. *)

From Stdlib Require Import Ascii String.
From stdpp Require Import base decidable option list strings numbers sorting.

Local Open Scope string_scope.
Local Open Scope nat_scope.
Local Open Scope list_scope.

(** ** JavaScript objects as maps *)

Definition obj (V : Type) : Type := list (string * V).

Section JsObject.
Context {V : Type}.

(** [o[k]] on an own property; [None] is [undefined]. On a plain object
    this is [o[k]] for every [k] that [Object.prototype] does not
    define. *)
Fixpoint get (k : string) (o : obj V) : option V :=
  match o with
  | [] => None
  | (k', v) :: o' => if decide (k = k') then Some v else get k o'
  end.

(** [k in o] (own properties). *)
Definition has (k : string) (o : obj V) : bool :=
  match get k o with Some _ => true | None => false end.

(** [o[k] = v]: an existing property keeps its place, a new one is
    created last. *)
Fixpoint set (k : string) (v : V) (o : obj V) : obj V :=
  match o with
  | [] => [(k, v)]
  | (k', v') :: o' =>
      if decide (k = k') then (k, v) :: o' else (k', v') :: set k v o'
  end.

(** [delete o[k]]. *)
Fixpoint delete (k : string) (o : obj V) : obj V :=
  match o with
  | [] => []
  | (k', v') :: o' =>
      if decide (k = k') then delete k o' else (k', v') :: delete k o'
  end.

(** An object has each property once. *)
Definition wf (o : obj V) : Prop := NoDup (o.*1).
End JsObject.

(** [Array.prototype.sort(comparefn)]: a stable sort (ECMAScript 2019);
    the comparator returns a negative, zero or positive number. *)
Section ArraySort.
Context {A : Type} (comparefn : A → A → Z).

Fixpoint sort_insert (x : A) (l : list A) : list A :=
  match l with
  | [] => [x]
  | y :: l' =>
      if (comparefn x y <=? 0)%Z then x :: y :: l' else y :: sort_insert x l'
  end.

Definition Array_sort (l : list A) : list A := foldr sort_insert [] l.
End ArraySort.

(** Property keys that are array indices (canonical decimal numerals up to
    2^32 - 2) are enumerated first, in ascending order; the other keys
    follow in creation order. *)
Definition digit_of (a : ascii) : option N :=
  let n := N_of_ascii a in
  if ((48 <=? n) && (n <=? 57))%N then Some (n - 48)%N else None.

Fixpoint digits (s : string) (acc : N) : option N :=
  match s with
  | EmptyString => Some acc
  | String a s' =>
      match digit_of a with
      | Some d => digits s' (10 * acc + d)%N
      | None => None
      end
  end.

Definition array_index (s : string) : option N :=
  match s with
  | EmptyString => None
  | String "0"%char EmptyString => Some 0%N
  | String "0"%char _ => None
  | _ =>
      match digits s 0 with
      | Some n => if (n <=? 4294967294)%N then Some n else None
      | None => None
      end
  end.

Definition is_array_index (s : string) : bool :=
  match array_index s with Some _ => true | None => false end.

Definition index_value (s : string) : Z :=
  match array_index s with Some n => Z.of_N n | None => 0%Z end.

Definition compare_index (a b : string) : Z := (index_value a - index_value b)%Z.

(** [Object.keys(o)]. *)
Definition Object_keys {V : Type} (o : obj V) : list string :=
  Array_sort compare_index (List.filter is_array_index (o.*1))
  ++ List.filter (λ k, negb (is_array_index k)) (o.*1).

(** Modelled from the spec: [keys], imported from [../type], is not in the
    source; the merge "key by key" enumerates the own keys of the map. *)
Definition keys {V : Type} (o : obj V) : list string := Object_keys o.

(** [String.prototype.toLowerCase] on ASCII text: the letters A to Z are
    lowered. Other bytes are left as they are, so on text with other
    characters this is not the source's function. *)
Definition lower_ascii (a : ascii) : ascii :=
  let n := nat_of_ascii a in
  if (65 <=? n) && (n <=? 90) then ascii_of_nat (n + 32) else a.

Fixpoint toLowerCase (s : string) : string :=
  match s with
  | EmptyString => EmptyString
  | String a s' => String (lower_ascii a) (toLowerCase s')
  end.

(** Truthiness of a string: the empty string is falsy. *)
Definition truthy_string (s : string) : bool :=
  match s with EmptyString => false | _ => true end.

(** ** Data of the module *)

(** A JavaScript number that the module only stores and copies (a
    coordinate): the bit pattern of the double. *)
Definition number : Type := Z.

(** Modelled from the spec: [ILocation] is declared in [./converter], which
    is not in the source; the spec gives the record
    [{ latitude, longitude, type, name, address }]. *)
Record ILocation := mkLocation {
  loc_latitude : number;
  loc_longitude : number;
  loc_type : string;
  loc_name : string;
  loc_address : string
}.

(** [loc.address = a] on the fields of an object. *)
Definition set_address (a : string) (l : ILocation) : ILocation :=
  {| loc_latitude := loc_latitude l; loc_longitude := loc_longitude l;
     loc_type := loc_type l; loc_name := loc_name l; loc_address := a |}.

(** A reference to an [ILocation] object: its index in the heap. *)
Definition ref : Type := nat.

(** The caller's function object passed as [then]. *)
Definition callback : Type := nat.

(** A map from address to location as the callers pass it
    ([StringMap<ILocation>]); a value can be [null] or [undefined]
    ([None]), which is falsy. *)
Definition StringMap : Type := obj (option ref).

(** [o[k]] read for its truthiness: an absent property and a falsy value
    are the same to the test [if (o[k])]. *)
Definition truthy_get (k : string) (o : StringMap) : option ref :=
  mjoin (get k o).

(** class GeocodeQuery *)
Record GeocodeQuery := mkGeocodeQuery {
  gq_query : string;
  gq_key : string;
  gq_cacheHits : nat
}.

Definition new_GeocodeQuery (query : string) : GeocodeQuery :=
  {| gq_query := query; gq_key := toLowerCase query; gq_cacheHits := 0 |}.

Definition incrementCacheHit (q : GeocodeQuery) : GeocodeQuery :=
  {| gq_query := gq_query q; gq_key := gq_key q;
     gq_cacheHits := S (gq_cacheHits q) |}.

Definition getCacheHits (q : GeocodeQuery) : nat := gq_cacheHits q.

Record IGeocodeCache := mkCache {
  cache_query : GeocodeQuery;
  cache_coordinate : ref
}.

Record IGeocodeQueueItem := mkItem {
  item_query : GeocodeQuery;
  item_then : callback
}.

(** [settings]; the endpoint, the API version and the credential only shape
    the request URL and are left out. The numbers are non-negative
    integers. *)
Record Settings := mkSettings {
  MaxAzureRequest : nat;
  MaxCacheSize : nat;
  MaxCacheSizeOverflow : nat
}.

Definition settings : Settings :=
  {| MaxAzureRequest := 6; MaxCacheSize := 3000; MaxCacheSizeOverflow := 1000 |}.

(** One invocation of a callback: the address text the request was made
    with ([addr] in [query], [item.query.query] for a queued item), the
    callback, its argument ([None] is [undefined]) and the fields of the
    argument at the instant of the call. *)
Record Delivery := mkDelivery {
  d_request : string;
  d_then : callback;
  d_arg : option ref;
  d_seen : option ILocation
}.

(** The module-level variables, the pending timers (each runs
    [releaseQuota(1)]), the requests handed to [fetch] and not settled
    yet, and two traces: the calls of [makeRequest] and the calls of the
    callbacks, both oldest first. *)
Record State := mkState {
  heap : list ILocation;
  _injected : StringMap;
  _initCache : StringMap;
  geocodeCache : obj IGeocodeCache;
  geocodeQueue : list IGeocodeQueueItem;
  activeRequests : Z;
  dequeueTimeoutId : option nat;
  timers : list nat;
  nextTimerId : nat;
  fetching : list IGeocodeQueueItem;
  dispatched : list IGeocodeQueueItem;
  delivered : list Delivery
}.

Definition with_heap (h : list ILocation) (st : State) : State :=
  mkState h (_injected st) (_initCache st) (geocodeCache st) (geocodeQueue st)
    (activeRequests st) (dequeueTimeoutId st) (timers st) (nextTimerId st)
    (fetching st) (dispatched st) (delivered st).

Definition with_injected (m : StringMap) (st : State) : State :=
  mkState (heap st) m (_initCache st) (geocodeCache st) (geocodeQueue st)
    (activeRequests st) (dequeueTimeoutId st) (timers st) (nextTimerId st)
    (fetching st) (dispatched st) (delivered st).

Definition with_initCache (m : StringMap) (st : State) : State :=
  mkState (heap st) (_injected st) m (geocodeCache st) (geocodeQueue st)
    (activeRequests st) (dequeueTimeoutId st) (timers st) (nextTimerId st)
    (fetching st) (dispatched st) (delivered st).

Definition with_geocodeCache (c : obj IGeocodeCache) (st : State) : State :=
  mkState (heap st) (_injected st) (_initCache st) c (geocodeQueue st)
    (activeRequests st) (dequeueTimeoutId st) (timers st) (nextTimerId st)
    (fetching st) (dispatched st) (delivered st).

Definition with_geocodeQueue (q : list IGeocodeQueueItem) (st : State) : State :=
  mkState (heap st) (_injected st) (_initCache st) (geocodeCache st) q
    (activeRequests st) (dequeueTimeoutId st) (timers st) (nextTimerId st)
    (fetching st) (dispatched st) (delivered st).

Definition with_activeRequests (n : Z) (st : State) : State :=
  mkState (heap st) (_injected st) (_initCache st) (geocodeCache st)
    (geocodeQueue st) n (dequeueTimeoutId st) (timers st) (nextTimerId st)
    (fetching st) (dispatched st) (delivered st).

Definition with_dequeueTimeoutId (t : option nat) (st : State) : State :=
  mkState (heap st) (_injected st) (_initCache st) (geocodeCache st)
    (geocodeQueue st) (activeRequests st) t (timers st) (nextTimerId st)
    (fetching st) (dispatched st) (delivered st).

Definition with_timers (ts : list nat) (next : nat) (st : State) : State :=
  mkState (heap st) (_injected st) (_initCache st) (geocodeCache st)
    (geocodeQueue st) (activeRequests st) (dequeueTimeoutId st) ts next
    (fetching st) (dispatched st) (delivered st).

Definition with_fetching (fs : list IGeocodeQueueItem) (st : State) : State :=
  mkState (heap st) (_injected st) (_initCache st) (geocodeCache st)
    (geocodeQueue st) (activeRequests st) (dequeueTimeoutId st) (timers st)
    (nextTimerId st) fs (dispatched st) (delivered st).

Definition with_dispatched (ds : list IGeocodeQueueItem) (st : State) : State :=
  mkState (heap st) (_injected st) (_initCache st) (geocodeCache st)
    (geocodeQueue st) (activeRequests st) (dequeueTimeoutId st) (timers st)
    (nextTimerId st) (fetching st) ds (delivered st).

Definition with_delivered (ds : list Delivery) (st : State) : State :=
  mkState (heap st) (_injected st) (_initCache st) (geocodeCache st)
    (geocodeQueue st) (activeRequests st) (dequeueTimeoutId st) (timers st)
    (nextTimerId st) (fetching st) (dispatched st) ds.

(** ** Heap, timers and callbacks *)

(** [new] of an object literal. *)
Definition alloc (v : ILocation) (st : State) : ref * State :=
  (length (heap st), with_heap (heap st ++ [v]) st).

(** [loc.address = a] through the reference [r]. *)
Definition write_address (r : ref) (a : string) (st : State) : State :=
  with_heap (alter (set_address a) r (heap st)) st.

(** [then(loc)]. *)
Definition call_then (request : string) (cb : callback) (arg : option ref)
    (st : State) : State :=
  with_delivered
    (delivered st ++
       [{| d_request := request; d_then := cb; d_arg := arg;
           d_seen := arg ≫= λ r, heap st !! r |}]) st.

(** [setTimeout(() => releaseQuota(1))]: returns the identifier of the new
    timer. *)
Definition setTimeout (st : State) : nat * State :=
  (nextTimerId st,
   with_timers (timers st ++ [nextTimerId st]) (S (nextTimerId st)) st).

(** [clearTimeout(id)]; [undefined] and [null] cancel nothing. *)
Definition clearTimeout (id : option nat) (st : State) : State :=
  match id with
  | Some t =>
      with_timers (List.filter (λ t', negb (Nat.eqb t' t)) (timers st))
        (nextTimerId st) st
  | None => st
  end.

(** ** The override store and the snapshot: [inject], [remove], [initCache] *)

(** The loop body of [inject]: a truthy value is stored, a falsy one
    deletes the key. *)
Definition inject_key (locs : StringMap) (injected : StringMap) (key : string)
    : StringMap :=
  match truthy_get key locs with
  | Some loc => set key (Some loc) injected
  | None => delete key injected
  end.

(** [inject(locs, reset)] on the value of [_injected]. With [reset] the
    caller's map becomes the store as it is. *)
Definition inject_map (locs : option StringMap) (reset : bool)
    (injected : StringMap) : StringMap :=
  let locs := default [] locs in
  if reset then locs
  else foldl (inject_key locs) injected (keys locs).

Definition inject (locs : option StringMap) (reset : bool) (st : State) : State :=
  with_injected (inject_map locs reset (_injected st)) st.

(** [remove(where)]: the predicate reads the fields of the stored object
    ([None] for a falsy value). *)
Definition remove_key (h : list ILocation) (where_ : option ILocation → bool)
    (injected : StringMap) (key : string) : StringMap :=
  if where_ (truthy_get key injected ≫= λ r, h !! r) then delete key injected
  else injected.

Definition remove_map (h : list ILocation) (where_ : option ILocation → bool)
    (injected : StringMap) : StringMap :=
  foldl (remove_key h where_) injected (keys injected).

Definition remove (where_ : option ILocation → bool) (st : State) : State :=
  with_injected (remove_map (heap st) where_ (_injected st)) st.

(** Modelled from the spec: [copy], imported from [../type], is not in the
    source; the snapshot "takes an independent deep copy of the supplied
    table". Every object of the table is allocated anew. *)
Fixpoint copy (locs : StringMap) (h : list ILocation)
    : StringMap * list ILocation :=
  match locs with
  | [] => ([], h)
  | (k, v) :: locs' =>
      match v ≫= λ r, h !! r with
      | Some l =>
          let '(m, h') := copy locs' (h ++ [l]) in
          ((k, Some (List.length h)) :: m, h')
      | None =>
          let '(m, h') := copy locs' h in ((k, None) :: m, h')
      end
  end.

Definition initCache (locs : StringMap) (st : State) : State :=
  let '(m, h) := copy locs (heap st) in
  with_initCache m (with_heap h st).

(** ** The adaptive cache: [findInCache], [cacheQuery], [getCacheSize] *)

(** [pair.query.incrementCacheHit()] on the entry under [k]. *)
Definition hit (k : string) (entry : IGeocodeCache) (cache : obj IGeocodeCache)
    : obj IGeocodeCache :=
  set k {| cache_query := incrementCacheHit (cache_query entry);
           cache_coordinate := cache_coordinate entry |} cache.

Definition findInCache (query : GeocodeQuery) (st : State)
    : option ref * State :=
  match get (gq_key query) (geocodeCache st) with
  | Some entry =>
      (Some (cache_coordinate entry),
       with_geocodeCache (hit (gq_key query) entry (geocodeCache st)) st)
  | None => (None, st)
  end.

(** [geocodeCache[a].query.getCacheHits()]; every key the comparator is
    given is a key of the cache. *)
Definition hits_of (cache : obj IGeocodeCache) (a : string) : nat :=
  match get a cache with
  | Some entry => getCacheHits (cache_query entry)
  | None => 0
  end.

(** The comparator of the eviction sort. *)
Definition compare_hits (cache : obj IGeocodeCache) (a b : string) : Z :=
  let ca := hits_of cache a in
  let cb := hits_of cache b in
  if ca <? cb then (-1)%Z else if cb <? ca then 1%Z else 0%Z.

Section Cache.
Variable cfg : Settings.

(** The keys the loop of [cacheQuery] deletes, in the order it deletes
    them; none when the size does not exceed the threshold. *)
Definition evicted (cache : obj IGeocodeCache) : list string :=
  let keys := Object_keys cache in
  let cacheSize := List.length keys in
  if MaxCacheSize cfg + MaxCacheSizeOverflow cfg <? List.length (Object_keys cache)
  then
    let sorted := Array_sort (compare_hits cache) keys in
    take (cacheSize - MaxCacheSize cfg) sorted
  else [].

(** The cache after the eviction loop. *)
Definition evict (cache : obj IGeocodeCache) : obj IGeocodeCache :=
  foldl (λ c k, delete k c) cache (evicted cache).

(** [cacheQuery(query, coordinate)] on the value of [geocodeCache]. *)
Definition cacheQuery (query : GeocodeQuery) (coordinate : ref)
    (cache : obj IGeocodeCache) : obj IGeocodeCache :=
  set (gq_key query)
    {| cache_query := query; cache_coordinate := coordinate |}
    (evict cache).
End Cache.

Definition getCacheSize (st : State) : nat :=
  List.length (Object_keys (geocodeCache st)).

(** A sequence of operations on the adaptive cache alone: insertions and
    lookups (a lookup that hits counts the hit). *)
Inductive CacheOp :=
  | CacheInsert (query : GeocodeQuery) (coordinate : ref)
  | CacheLookup (query : GeocodeQuery).

Definition cache_op (cfg : Settings) (cache : obj IGeocodeCache) (op : CacheOp)
    : obj IGeocodeCache :=
  match op with
  | CacheInsert q c => cacheQuery cfg q c cache
  | CacheLookup q =>
      match get (gq_key q) cache with
      | Some entry => hit (gq_key q) entry cache
      | None => cache
      end
  end.

Definition cache_ops (cfg : Settings) (ops : list CacheOp) : obj IGeocodeCache :=
  foldl (cache_op cfg) [] ops.

(** ** The provider response *)

Record Position := mkPosition { lat : number; lon : number }.
Record Poi := mkPoi { poi_name : option string }.
Record Address := mkAddress { freeformAddress : option string }.

(** One element of [data.results]. *)
Record AzureResult := mkResult {
  res_position : option Position;
  res_type : option string;
  res_poi : option Poi;
  res_address : option Address
}.

Inductive Error :=
  | ERROR_EMPTY
  | HttpError
  | NetworkError
  | SyntaxError
  | TypeError
  | ReferenceError.

(** How a request handed to [fetch] settles: [fetch] rejects, the status
    is not ok, the body is not JSON, or the body parses to [data]; the
    results are [None] when [data] is falsy or [data.results] is not an
    array. *)
Inductive FetchOutcome :=
  | FetchRejected
  | FetchNotOk
  | FetchBadJson
  | FetchJson (results : option (list AzureResult)).

(** [a || b] on optional strings: the first truthy one. *)
Definition first_truthy (a : option string) (b : string) : string :=
  match a with
  | Some s => if truthy_string s then s else b
  | None => b
  end.

(** [(best.poi && best.poi.name) || (best.address &&
    best.address.freeformAddress) || item.query.query] *)
Definition displayName (best : AzureResult) (query : string) : string :=
  first_truthy (res_poi best ≫= poi_name)
    (first_truthy (res_address best ≫= freeformAddress) query).

(** The object literal [coord] of [makeRequest]. *)
Definition coord_of (best : AzureResult) (pos : Position) (query : string)
    : ILocation :=
  {| loc_latitude := lat pos;
     loc_longitude := lon pos;
     loc_type := first_truthy (res_type best) "Geography";
     loc_name := displayName best query;
     loc_address := query |}.

Definition getBestResultIndex (resources : list AzureResult)
    (query : GeocodeQuery) : nat := 0.

(** ** The dispatcher and the facade *)

Section Service.
Variable cfg : Settings.

(** What the identifier [getBestResultIndexAzure], which [makeRequest]
    calls, resolves to. The module neither declares nor imports it, so
    it is looked up on the global object: [None] when no such global
    exists (the call then raises a ReferenceError). *)
Variable getBestResultIndexAzure :
  option (list AzureResult → GeocodeQuery → nat).

(** [completeRequest(item, error, coordinate)]. The call sites pass an
    error and [null], or [null] and a coordinate; with neither, the
    source raises a TypeError at [coordinate.address] after the timer is
    set. *)
Definition completeRequest (item : IGeocodeQueueItem) (error : option Error)
    (coordinate : option ref) (st : State) : State :=
  let '(id, st) := setTimeout st in
  let st := with_dequeueTimeoutId (Some id) st in
  match error, coordinate with
  | Some _, _ => call_then (gq_query (item_query item)) (item_then item) None st
  | None, Some c =>
      let st :=
        with_geocodeCache
          (cacheQuery cfg (item_query item) c (geocodeCache st)) st in
      let st := write_address c (gq_query (item_query item)) st in
      call_then (gq_query (item_query item)) (item_then item) (Some c) st
  | None, None => st
  end.

(** The handler of the parsed body, [.then(data => ...)]: the state it
    leaves, or the error it throws. *)
Definition on_data (item : IGeocodeQueueItem)
    (results : option (list AzureResult)) (st : State) : Error + State :=
  match results with
  | None | Some [] => inr (completeRequest item (Some ERROR_EMPTY) None st)
  | Some results =>
      match getBestResultIndexAzure with
      | None => inl ReferenceError
      | Some f =>
          let index := f results (item_query item) in
          match results !! index with
          | None => inl TypeError
          | Some best =>
              match res_position best with
              | None => inl TypeError
              | Some pos =>
                  let '(coord, st) :=
                    alloc (coord_of best pos (gq_query (item_query item))) st in
                  inr (completeRequest item None (Some coord) st)
              end
          end
      end
  end.

(** [.catch(err => completeRequest(item, err, null))] *)
Definition on_catch (item : IGeocodeQueueItem) (err : Error) (st : State)
    : State :=
  completeRequest item (Some err) None st.

(** The promise chain of [makeRequest] once the request settles, with a
    callback that returns normally ([settle_raising] is the chain with a
    callback that throws). *)
Definition settle (item : IGeocodeQueueItem) (outcome : FetchOutcome)
    (st : State) : State :=
  match outcome with
  | FetchRejected => on_catch item NetworkError st
  | FetchNotOk => on_catch item HttpError st
  | FetchBadJson => on_catch item SyntaxError st
  | FetchJson results =>
      match on_data item results st with
      | inl err => on_catch item err st
      | inr st' => st'
      end
  end.

(** [makeRequest(item)]: a hit in the cache completes the item at once
    and schedules the release with a timer whose identifier is not kept;
    otherwise the request goes to [fetch]. The URL that [getAzureUrl]
    builds from the query and the settings plays no part in what follows
    and is left out: the request in flight is the item itself. *)
Definition makeRequest (item : IGeocodeQueueItem) (st : State) : State :=
  let st := with_dispatched (dispatched st ++ [item]) st in
  match findInCache (item_query item) st with
  | (Some cached, st) =>
      let st := write_address cached (gq_query (item_query item)) st in
      let '(_, st) := setTimeout st in
      call_then (gq_query (item_query item)) (item_then item) (Some cached) st
  | (None, st) => with_fetching (fetching st ++ [item]) st
  end.

(** The loop of [releaseQuota]; [queue] is the value of [geocodeQueue]. *)
Fixpoint drain (queue : list IGeocodeQueueItem) (st : State) : State :=
  if (activeRequests st <? Z.of_nat (MaxAzureRequest cfg))%Z then
    match queue with
    | [] => with_geocodeQueue [] st
    | item :: queue' =>
        let st := with_activeRequests (activeRequests st + 1)%Z st in
        let st := with_geocodeQueue queue' st in
        drain queue' (makeRequest item st)
    end
  else with_geocodeQueue queue st.

Definition releaseQuota (decrement : Z) (st : State) : State :=
  let st := with_activeRequests (activeRequests st - decrement)%Z st in
  drain (geocodeQueue st) st.

Definition geocodeCore (geocodeQuery : GeocodeQuery) (then_ : callback)
    (st : State) : State :=
  match findInCache geocodeQuery st with
  | (Some result, st) =>
      let st := write_address result (gq_query geocodeQuery) st in
      call_then (gq_query geocodeQuery) then_ (Some result) st
  | (None, st) =>
      let st :=
        with_geocodeQueue
          (geocodeQueue st ++
             [{| item_query := geocodeQuery; item_then := then_ |}]) st in
      releaseQuota 0 st
  end.

(** [query(addr)]: the synchronous lookup. *)
Definition query (addr : string) (st : State) : option ref * State :=
  match truthy_get addr (_injected st) with
  | Some loc => (Some loc, st)
  | None =>
      match truthy_get addr (_initCache st) with
      | Some loc => (Some loc, st)
      | None =>
          match get (toLowerCase addr) (geocodeCache st) with
          | Some rec =>
              (Some (cache_coordinate rec),
               with_geocodeCache
                 (hit (toLowerCase addr) rec (geocodeCache st)) st)
          | None => (None, st)
          end
      end
  end.

(** [query(addr, then)]: the asynchronous resolution. [None] is the
    TypeError of [loc.address = addr] on a snapshot property whose value
    is [null]. *)
Definition query_then (addr : string) (then_ : callback) (st : State)
    : option State :=
  match truthy_get addr (_injected st) with
  | Some loc =>
      let st := write_address loc addr st in
      Some (call_then addr then_ (Some loc) st)
  | None =>
      if has addr (_initCache st) then
        match truthy_get addr (_initCache st) with
        | Some loc =>
            let st := write_address loc addr st in
            Some (call_then addr then_ (Some loc) st)
        | None => None
        end
      else Some (geocodeCore (new_GeocodeQuery addr) then_ st)
  end.

Definition latitude (addr : string) (st : State) : option number * State :=
  let '(loc, st) := query addr st in
  match loc with
  | Some r => (loc_latitude <$> heap st !! r, st)
  | None => (None, st)
  end.

Definition longitude (addr : string) (st : State) : option number * State :=
  let '(loc, st) := query addr st in
  match loc with
  | Some r => (loc_longitude <$> heap st !! r, st)
  | None => (None, st)
  end.

Definition reset (st : State) : State :=
  let st := with_geocodeCache [] st in
  let st := with_geocodeQueue [] st in
  let st := with_activeRequests 0%Z st in
  let st := clearTimeout (dequeueTimeoutId st) st in
  with_dequeueTimeoutId None st.

(** ** The module as a transition system *)

Inductive Event :=
  | ENewLocation (v : ILocation)
  | EInject (locs : option StringMap) (reset : bool)
  | ERemove (where_ : option ILocation → bool)
  | EInitCache (locs : StringMap)
  | EQuery (addr : string)
  | EQueryThen (addr : string) (then_ : callback)
  | ETimer (id : nat)
  | ESettle (i : nat) (outcome : FetchOutcome)
  | EReset.

(** One turn of the event loop. A timer that is not pending and a
    request that is not in flight do nothing; a call that throws leaves
    the state as it was. *)
Definition step (st : State) (ev : Event) : State :=
  match ev with
  | ENewLocation v => (alloc v st).2
  | EInject locs r => inject locs r st
  | ERemove w => remove w st
  | EInitCache locs => initCache locs st
  | EQuery addr => (query addr st).2
  | EQueryThen addr cb => default st (query_then addr cb st)
  | ETimer id =>
      if bool_decide (id ∈ timers st) then
        releaseQuota 1
          (with_timers (List.filter (λ t, negb (Nat.eqb t id)) (timers st))
             (nextTimerId st) st)
      else st
  | ESettle i outcome =>
      match fetching st !! i with
      | Some item =>
          settle item outcome
            (with_fetching (take i (fetching st) ++ drop (S i) (fetching st)) st)
      | None => st
      end
  | EReset => reset st
  end.

Definition run (st : State) (evs : list Event) : State := foldl step st evs.
End Service.

(** The state once the module body has run: the stores are empty objects
    and the closing [reset()] has initialised the rest. *)
Definition init_state : State :=
  {| heap := []; _injected := []; _initCache := []; geocodeCache := [];
     geocodeQueue := []; activeRequests := 0%Z; dequeueTimeoutId := None;
     timers := []; nextTimerId := 1; fetching := []; dispatched := [];
     delivered := [] |}.

(** The global scope the repository provides: nothing defines
    [getBestResultIndexAzure]. *)
Definition module_scope : option (list AzureResult → GeocodeQuery → nat) := None.

(** The outcomes that are failures: a transport error ([fetch] rejects,
    the status is not ok, the body does not parse) and an empty or
    malformed result list. *)
Definition failed (outcome : FetchOutcome) : bool :=
  match outcome with
  | FetchJson (Some (_ :: _)) => false
  | _ => true
  end.

(** The call [then(undefined)] for an item. *)
Definition absent (item : IGeocodeQueueItem) : Delivery :=
  {| d_request := gq_query (item_query item); d_then := item_then item;
     d_arg := None; d_seen := None |}.

(** A store that maps no key to a falsy value. *)
Definition no_falsy (m : StringMap) : Prop := Forall (λ kv, is_Some kv.2) m.

(** The maps that calls of [inject] with [reset] install. *)
Definition installed (evs : list Event) : list StringMap :=
  omap (λ ev, match ev with
              | EInject locs true => Some (default [] locs)
              | _ => None
              end) evs.

(** The requests made so far: the address and the callback of every call
    [query(addr, then)]. *)
Definition requests (evs : list Event) : list (string * callback) :=
  omap (λ ev, match ev with
              | EQueryThen addr then_ => Some (addr, then_)
              | _ => None
              end) evs.

(** The location a callback was given carries the requested text as its
    address. *)
Definition addressed (d : Delivery) : Prop :=
  ∀ v, d_seen d = Some v → loc_address v = d_request d.

(** The invariant behind it, relative to the requests [R] made so far:
    every call of a callback answers one of them with its text as address,
    and every item queued or in flight stands for one of them. *)
Definition item_ok (R : list (string * callback)) (item : IGeocodeQueueItem)
    : Prop :=
  (gq_query (item_query item), item_then item) ∈ R.

Definition delivery_ok (R : list (string * callback)) (d : Delivery) : Prop :=
  addressed d ∧ (d_request d, d_then d) ∈ R.

Definition state_ok (R : list (string * callback)) (st : State) : Prop :=
  Forall (delivery_ok R) (delivered st)
  ∧ Forall (item_ok R) (fetching st)
  ∧ Forall (item_ok R) (geocodeQueue st).

(** The invariant of the adaptive cache. *)
Definition cache_inv (cfg : Settings) (cache : obj IGeocodeCache) : Prop :=
  wf cache
  ∧ List.length cache ≤ MaxCacheSize cfg + MaxCacheSizeOverflow cfg + 1.


(** ** Sample data *)

(** Distinct lower-case addresses: [n] written with [len] letters in base
    26, lowest digit first. *)
Fixpoint letters (len n : nat) : string :=
  match len with
  | 0 => EmptyString
  | S len' => String (ascii_of_nat (97 + n mod 26)) (letters len' (n / 26))
  end.

Definition sample_address (n : nat) : string := letters 3 n.

(** The number a sample address stands for. *)
Fixpoint unletters (s : string) : nat :=
  match s with
  | EmptyString => 0
  | String a s' => (nat_of_ascii a - 97) + 26 * unletters s'
  end.

(** [count] queries of distinct addresses, each with its coordinate, and
    their insertions. *)
Definition sample_queries (count : nat) : list (GeocodeQuery * ref) :=
  (λ n, (new_GeocodeQuery (sample_address n), n)) <$> seq 0 count.

Definition sample_inserts (count : nat) : list CacheOp :=
  (λ p : GeocodeQuery * ref, CacheInsert p.1 p.2) <$> sample_queries count.

(** A configuration with a small cache. *)
Definition small_settings : Settings :=
  {| MaxAzureRequest := 6; MaxCacheSize := 3; MaxCacheSizeOverflow := 1 |}.

Definition entry_with_hits (addr : string) (hits : nat) (c : ref)
    : string * IGeocodeCache :=
  (toLowerCase addr,
   {| cache_query :=
        {| gq_query := addr; gq_key := toLowerCase addr; gq_cacheHits := hits |};
      cache_coordinate := c |}).

(** Five entries with the hit counts 5, 0, 3, 1, 8. *)
Definition five_entries : obj IGeocodeCache :=
  [entry_with_hits "A" 5 0; entry_with_hits "B" 0 1; entry_with_hits "C" 3 2;
   entry_with_hits "D" 1 3; entry_with_hits "E" 8 4].

(** The operations that build [five_entries]: five insertions, then the
    lookups that count the hits. *)
Definition five_entries_ops : list CacheOp :=
  ((λ p : string * ref, CacheInsert (new_GeocodeQuery p.1) p.2)
     <$> [("A", 0); ("B", 1); ("C", 2); ("D", 3); ("E", 4)])
  ++ replicate 5 (CacheLookup (new_GeocodeQuery "a"))
  ++ replicate 3 (CacheLookup (new_GeocodeQuery "C"))
  ++ replicate 1 (CacheLookup (new_GeocodeQuery "d"))
  ++ replicate 8 (CacheLookup (new_GeocodeQuery "E")).

(** Nine requests for distinct addresses, the callbacks numbered as the
    addresses; with six slots the last three wait in the queue. *)
Definition nine_requests : list Event :=
  (λ n, EQueryThen (sample_address n) n) <$> seq 0 9.

Definition sample_item (n : nat) : IGeocodeQueueItem :=
  {| item_query := new_GeocodeQuery (sample_address n); item_then := n |}.

(** A state in which the three tiers hold a different location for the
    same address. *)
Definition three_tiers : State :=
  {| heap := [mkLocation 1%Z 2%Z "Override" "o" "";
              mkLocation 3%Z 4%Z "Snapshot" "s" "";
              mkLocation 5%Z 6%Z "Cached" "c" ""];
     _injected := [("Paris", Some 0)];
     _initCache := [("Paris", Some 1)];
     geocodeCache :=
       [("paris", {| cache_query := new_GeocodeQuery "Paris";
                     cache_coordinate := 2 |})];
     geocodeQueue := []; activeRequests := 0%Z; dequeueTimeoutId := None;
     timers := []; nextTimerId := 1; fetching := []; dispatched := [];
     delivered := [] |}.

(** A candidate of a provider response. *)
Definition sample_result : AzureResult :=
  {| res_position := Some {| lat := 48%Z; lon := 2%Z |};
     res_type := None;
     res_poi := None;
     res_address := Some {| freeformAddress := Some "Paris, France" |} |}.


(** Six requests are in flight and a seventh, for the address of the
    first, waits; the first succeeds, its release dispatches the seventh,
    which finds the address in the cache; then [reset()] runs. *)
Definition cached_dispatch_then_reset : list Event :=
  ((λ n, EQueryThen (sample_address n) n) <$> seq 0 6)
  ++ [EQueryThen (sample_address 0) 6;
      ESettle 0 (FetchJson (Some [sample_result])); ETimer 1; EReset].

(** Calls on the override store: a merge with a truthy and a falsy value,
    and a removal. *)
Definition store_calls : list Event :=
  [ENewLocation (mkLocation 1%Z 2%Z "Address" "Main" "");
   EInject (Some [("123 Main St", Some 0); ("Gone", None)]) false;
   ERemove (λ l, match l with Some v => String.eqb (loc_type v) "Poi" | None => true end)].

(** Scenario B of the spec, up to the resolution: an override is set. *)
Definition override_is_set : list Event :=
  [ENewLocation (mkLocation 40%Z (-74)%Z "Address" "Home" "");
   EInject (Some [("123 Main St", Some 0)]) false].

(** ** Counting requests *)

(** The calls [query(addr, then)] among [evs] that return normally, when
    the events run from the state [st]. *)
Fixpoint accepted (cfg : Settings)
    (getBestResultIndexAzure : option (list AzureResult → GeocodeQuery → nat))
    (st : State) (evs : list Event) : nat :=
  match evs with
  | [] => 0
  | ev :: evs' =>
      match ev with
      | EQueryThen addr then_ =>
          match query_then cfg addr then_ st with Some _ => 1 | None => 0 end
      | _ => 0
      end
      + accepted cfg getBestResultIndexAzure
          (step cfg getBestResultIndexAzure st ev) evs'
  end.

(** The requests a state accounts for: answered, queued or in flight. *)
Definition accounted (st : State) : nat :=
  List.length (delivered st) + List.length (geocodeQueue st)
  + List.length (fetching st).

(** The slots a state holds: one for every request in flight and one for
    every release that is scheduled and has not run. *)
Definition held (st : State) : nat :=
  List.length (fetching st) + List.length (timers st).

(** Timer identifiers are distinct and older than the next one. *)
Definition timers_wf (st : State) : Prop :=
  NoDup (timers st) ∧ Forall (λ t, t < nextTimerId st) (timers st).

(** ** Normalised keys *)

(** A query whose key is the lower-case form of its text, as the
    constructor makes it. *)
Definition normalised (q : GeocodeQuery) : Prop :=
  gq_key q = toLowerCase (gq_query q).

(** Every entry of the cache is stored under the key of its query, and that
    key is normalised; so is the key of every item queued or in flight. *)
Definition keys_normalised (st : State) : Prop :=
  (∀ k entry, get k (geocodeCache st) = Some entry →
     k = gq_key (cache_query entry) ∧ normalised (cache_query entry))
  ∧ Forall (λ item, normalised (item_query item)) (geocodeQueue st)
  ∧ Forall (λ item, normalised (item_query item)) (fetching st).

(** ** controller.ts: [defaultZoom] and [MapFormat.build] *)

(** The loop of [defaultZoom] from [level] on, with [levels] iterations
    left. *)
Fixpoint defaultZoom_loop (levels : nat) (level : Z) (min : Z) : Z :=
  match levels with
  | 0 => 24%Z
  | S levels' =>
      if (min <? 512 * 2 ^ level)%Z then level
      else defaultZoom_loop levels' (level + 1)%Z min
  end.

(** [defaultZoom(width, height)] for sizes that are integers (counts of
    pixels); on these [512 * Math.pow(2, level)] is exact. *)
Definition defaultZoom (width height : Z) : Z :=
  defaultZoom_loop 24 1%Z (Z.min width height).

(** The values of the fields of a format. *)
Inductive FormatValue :=
  | FUndefined
  | FBool (b : bool)
  | FString (s : string).

(** [new MapFormat()]: the fields in the order of their declaration. *)
Definition new_MapFormat : obj FormatValue :=
  [("type", FString "road"); ("lang", FString "default"); ("pan", FBool true);
   ("zoom", FBool true); ("city", FBool false); ("road", FString "color");
   ("label", FBool true); ("forest", FBool true); ("icon", FBool false);
   ("building", FBool false); ("area", FBool false); ("scale", FBool false)].

(** The body of the inner loop of [MapFormat.build]:
    [if (key in f) ret[key] = f[key]]. *)
Definition build_key (f : obj FormatValue) (ret : obj FormatValue)
    (key : string) : obj FormatValue :=
  match get key f with
  | Some v => set key v ret
  | None => ret
  end.

(** [for (const key in ret) ...] for one format; the keys of [ret] are its
    own fields. *)
Definition build_format (ret : obj FormatValue) (f : obj FormatValue)
    : obj FormatValue :=
  foldl (build_key f) ret (Object_keys ret).

(** [MapFormat.build(...fmts)]; a format is an object, or [null] or
    [undefined] ([None]), which [fmts.filter(v => v)] drops. *)
Definition MapFormat_build (fmts : list (option (obj FormatValue)))
    : obj FormatValue :=
  foldl build_format new_MapFormat (omap id fmts).

(** The value of the field [k] after the formats [fmts]: that of the last
    format that has the field, or else the value [v] it starts with. *)
Definition last_given (k : string) (fmts : list (option (obj FormatValue)))
    (v : FormatValue) : FormatValue :=
  foldl (λ v f, default v (get k f)) v (omap id fmts).

(** ** Further sample data *)

(** Two of the five entries. *)
Definition two_entries : obj IGeocodeCache :=
  [entry_with_hits "A" 5 0; entry_with_hits "B" 0 1].

(** The state [three_tiers] without its override. *)
Definition snapshot_and_cache : State := with_injected [] three_tiers.


(** The item of a request for ["Paris"]. *)
Definition paris_item : IGeocodeQueueItem :=
  {| item_query := new_GeocodeQuery "Paris"; item_then := 7 |}.

(** ** Names and text on which the embedding is exact *)

(** The properties a plain object inherits from [Object.prototype]. For one
    of these names [o[k]] is truthy and [k in o] holds on an object that
    has no such own property, and an assignment to [__proto__] replaces
    the prototype; for every other name [get], [has] and [set] are [o[k]],
    [k in o] and [o[k] = v]. *)
Definition Object_prototype_names : list string :=
  ["constructor"; "hasOwnProperty"; "isPrototypeOf"; "propertyIsEnumerable";
   "toLocaleString"; "toString"; "valueOf"; "__proto__";
   "__defineGetter__"; "__defineSetter__"; "__lookupGetter__";
   "__lookupSetter__"].

Definition plain_name (k : string) : bool :=
  bool_decide (k ∉ Object_prototype_names).

(** Text of ASCII characters only: on such text [toLowerCase] is
    [String.prototype.toLowerCase]. *)
Fixpoint ascii_text (s : string) : bool :=
  match s with
  | EmptyString => true
  | String a s' => (nat_of_ascii a <? 128) && ascii_text s'
  end.

(** A map without an own property [__proto__]. *)
Definition no_proto_key (m : StringMap) : Prop := "__proto__" ∉ m.*1.

(** The maps that calls of [inject] without [reset] merge into the
    store. *)
Definition merged (evs : list Event) : list StringMap :=
  omap (λ ev, match ev with
              | EInject locs false => Some (default [] locs)
              | _ => None
              end) evs.

(** The call [then_(loc)] for the request [addr] made in the state [st],
    after [loc.address = addr]: the callback sees the object [loc] of [st]
    with [addr] as its address. *)
Definition delivery_of (addr : string) (then_ : callback) (loc : ref)
    (st : State) : Delivery :=
  {| d_request := addr; d_then := then_; d_arg := Some loc;
     d_seen := set_address addr <$> heap st !! loc |}.

(** ** Callbacks that throw *)

(** The functions above take every callback to return normally. Here a
    call of a callback can throw: [raises d] is the error the call [d]
    throws, if any (an [Error] object, hence truthy). An exception leaves
    the function it passes through at once: it ends the loop of
    [releaseQuota], and inside the handler of the parsed body it rejects
    the promise, so that the [catch] handler runs [completeRequest] a
    second time. Each function returns the state it leaves and the error
    it throws, if any. *)
Section Raising.
Variable cfg : Settings.
Variable getBestResultIndexAzure :
  option (list AzureResult → GeocodeQuery → nat).
Variable raises : Delivery → option Error.

Definition call_then_raising (request : string) (cb : callback)
    (arg : option ref) (st : State) : State * option Error :=
  (call_then request cb arg st,
   raises {| d_request := request; d_then := cb; d_arg := arg;
             d_seen := arg ≫= λ r, heap st !! r |}).

(** [completeRequest(item, error, null)] and
    [completeRequest(item, null, coordinate)]. *)
Definition completeRequest_raising (item : IGeocodeQueueItem)
    (result : Error + ref) (st : State) : State * option Error :=
  let '(id, st) := setTimeout st in
  let st := with_dequeueTimeoutId (Some id) st in
  match result with
  | inl _ => call_then_raising (gq_query (item_query item)) (item_then item) None st
  | inr c =>
      let st :=
        with_geocodeCache
          (cacheQuery cfg (item_query item) c (geocodeCache st)) st in
      let st := write_address c (gq_query (item_query item)) st in
      call_then_raising (gq_query (item_query item)) (item_then item) (Some c) st
  end.

Definition on_data_raising (item : IGeocodeQueueItem)
    (results : option (list AzureResult)) (st : State)
    : State * option Error :=
  match results with
  | None | Some [] => completeRequest_raising item (inl ERROR_EMPTY) st
  | Some results =>
      match getBestResultIndexAzure with
      | None => (st, Some ReferenceError)
      | Some f =>
          let index := f results (item_query item) in
          match results !! index with
          | None => (st, Some TypeError)
          | Some best =>
              match res_position best with
              | None => (st, Some TypeError)
              | Some pos =>
                  let '(coord, st) :=
                    alloc (coord_of best pos (gq_query (item_query item))) st in
                  completeRequest_raising item (inr coord) st
              end
          end
      end
  end.

(** The [catch] handler is the last of the chain: what it throws is an
    unhandled rejection and changes nothing more. *)
Definition on_catch_raising (item : IGeocodeQueueItem) (err : Error)
    (st : State) : State :=
  (completeRequest_raising item (inl err) st).1.

Definition settle_raising (item : IGeocodeQueueItem) (outcome : FetchOutcome)
    (st : State) : State :=
  match outcome with
  | FetchRejected => on_catch_raising item NetworkError st
  | FetchNotOk => on_catch_raising item HttpError st
  | FetchBadJson => on_catch_raising item SyntaxError st
  | FetchJson results =>
      match on_data_raising item results st with
      | (st', Some err) => on_catch_raising item err st'
      | (st', None) => st'
      end
  end.

Definition makeRequest_raising (item : IGeocodeQueueItem) (st : State)
    : State * option Error :=
  let st := with_dispatched (dispatched st ++ [item]) st in
  match findInCache (item_query item) st with
  | (Some cached, st) =>
      let st := write_address cached (gq_query (item_query item)) st in
      let '(_, st) := setTimeout st in
      call_then_raising (gq_query (item_query item)) (item_then item)
        (Some cached) st
  | (None, st) => (with_fetching (fetching st ++ [item]) st, None)
  end.

Fixpoint drain_raising (queue : list IGeocodeQueueItem) (st : State)
    : State * option Error :=
  if (activeRequests st <? Z.of_nat (MaxAzureRequest cfg))%Z then
    match queue with
    | [] => (with_geocodeQueue [] st, None)
    | item :: queue' =>
        let st := with_activeRequests (activeRequests st + 1)%Z st in
        let st := with_geocodeQueue queue' st in
        match makeRequest_raising item st with
        | (st', Some err) => (st', Some err)
        | (st', None) => drain_raising queue' st'
        end
    end
  else (with_geocodeQueue queue st, None).

Definition releaseQuota_raising (decrement : Z) (st : State)
    : State * option Error :=
  let st := with_activeRequests (activeRequests st - decrement)%Z st in
  drain_raising (geocodeQueue st) st.

Definition geocodeCore_raising (geocodeQuery : GeocodeQuery) (then_ : callback)
    (st : State) : State * option Error :=
  match findInCache geocodeQuery st with
  | (Some result, st) =>
      let st := write_address result (gq_query geocodeQuery) st in
      call_then_raising (gq_query geocodeQuery) then_ (Some result) st
  | (None, st) =>
      let st :=
        with_geocodeQueue
          (geocodeQueue st ++
             [{| item_query := geocodeQuery; item_then := then_ |}]) st in
      releaseQuota_raising 0 st
  end.

Definition query_then_raising (addr : string) (then_ : callback) (st : State)
    : State * option Error :=
  match truthy_get addr (_injected st) with
  | Some loc =>
      let st := write_address loc addr st in
      call_then_raising addr then_ (Some loc) st
  | None =>
      if has addr (_initCache st) then
        match truthy_get addr (_initCache st) with
        | Some loc =>
            let st := write_address loc addr st in
            call_then_raising addr then_ (Some loc) st
        | None => (st, Some TypeError)
        end
      else geocodeCore_raising (new_GeocodeQuery addr) then_ st
  end.

(** One turn of the event loop; an exception that reaches the caller or
    the event loop leaves the state as it is at that instant. *)
Definition step_raising (st : State) (ev : Event) : State :=
  match ev with
  | EQueryThen addr cb => (query_then_raising addr cb st).1
  | ETimer id =>
      if bool_decide (id ∈ timers st) then
        (releaseQuota_raising 1
           (with_timers (List.filter (λ t, negb (Nat.eqb t id)) (timers st))
              (nextTimerId st) st)).1
      else st
  | ESettle i outcome =>
      match fetching st !! i with
      | Some item =>
          settle_raising item outcome
            (with_fetching (take i (fetching st) ++ drop (S i) (fetching st)) st)
      | None => st
      end
  | _ => step cfg getBestResultIndexAzure st ev
  end.

Definition run_raising (st : State) (evs : list Event) : State :=
  foldl step_raising st evs.

(** The calls [query(addr, then)] among [evs] that return normally. *)
Fixpoint accepted_raising (st : State) (evs : list Event) : nat :=
  match evs with
  | [] => 0
  | ev :: evs' =>
      match ev with
      | EQueryThen addr then_ =>
          match (query_then_raising addr then_ st).2 with
          | None => 1
          | Some _ => 0
          end
      | _ => 0
      end
      + accepted_raising (step_raising st ev) evs'
  end.
End Raising.

(** Callbacks that return normally. *)
Definition quiet : Delivery → option Error := λ _, None.

(** A callback that throws whenever it is called. *)
Definition always_raises : Delivery → option Error := λ _, Some TypeError.

(** ** The trace of calls *)



(** ** Sample data for the tiers and for [reset] *)

(** A call with [reset] installs a map with a falsy value for ["a"]; the
    snapshot has a location for ["a"]. *)
Definition falsy_override_and_snapshot : list Event :=
  [ENewLocation (mkLocation 3%Z 4%Z "Snapshot" "s" "");
   EInject (Some [("a", None)]) true;
   EInitCache [("a", Some 0)]].

(** The state [three_tiers] with the adaptive cache alone. *)
Definition cache_only : State := with_initCache [] snapshot_and_cache.

(** Nine requests, of which three wait; the first fails, so that one
    release is pending, the one [dequeueTimeoutId] records. *)
Definition nine_requests_one_failed : list Event :=
  nine_requests ++ [ESettle 0 FetchRejected].

(** * Properties *)

(** ** Objects *)

Section JsObjectFacts.
Context {V : Type}.
Implicit Types (o : obj V) (k : string) (v : V).

Lemma get_None_keys o k : get k o = None ↔ k ∉ o.*1.
Proof.
  induction o as [|[k' v'] o IH]; simpl.
  - split; [intros _; apply not_elem_of_nil | done].
  - destruct (decide (k = k')) as [->|Hne].
    + split; [done | intros H; exfalso; apply H; left].
    + rewrite IH, not_elem_of_cons. tauto.
Qed.

Lemma get_Some_keys o k v : get k o = Some v → k ∈ o.*1.
Proof.
  intros H. destruct (decide (k ∈ o.*1)) as [|Hn]; [done|].
  apply get_None_keys in Hn. congruence.
Qed.

Lemma keys_get_Some o k : k ∈ o.*1 → is_Some (get k o).
Proof.
  intros H. destruct (get k o) eqn:E; [eauto|].
  apply get_None_keys in E. done.
Qed.

Lemma has_keys o k : has k o = true ↔ k ∈ o.*1.
Proof.
  unfold has. split.
  - destruct (get k o) eqn:E; [|done]. intros _. by eapply get_Some_keys.
  - intros [v ->]%keys_get_Some. done.
Qed.

Lemma get_set_eq o k v : get k (set k v o) = Some v.
Proof.
  induction o as [|[k' v'] o IH]; simpl.
  - by rewrite decide_True.
  - destruct (decide (k = k')) as [->|Hne]; simpl.
    + by rewrite decide_True.
    + by rewrite decide_False.
Qed.

Lemma get_set_ne o k k' v : k ≠ k' → get k' (set k v o) = get k' o.
Proof.
  intros Hne. induction o as [|[k'' v''] o IH]; simpl.
  - by rewrite decide_False.
  - destruct (decide (k = k'')) as [->|Hne']; simpl.
    + by rewrite !decide_False.
    + by rewrite IH.
Qed.

Lemma keys_set o k v :
  (set k v o).*1 = if has k o then o.*1 else o.*1 ++ [k].
Proof.
  unfold has. induction o as [|[k' v'] o IH]; csimpl; [done|].
  destruct (decide (k = k')) as [->|Hne]; csimpl; [done|].
  rewrite IH. by destruct (get k o).
Qed.

Lemma length_set o k v :
  List.length (set k v o) =
    if has k o then List.length o else S (List.length o).
Proof.
  rewrite <- (length_fmap fst (set k v o)), keys_set.
  destruct (has k o); rewrite ?length_app, length_fmap; simpl; lia.
Qed.

Lemma wf_set o k v : wf o → wf (set k v o).
Proof.
  unfold wf. intros Hwf. rewrite keys_set.
  destruct (has k o) eqn:E; [done|].
  apply list.NoDup_app. split_and!; [done| |apply NoDup_singleton].
  intros x Hx ->%list_elem_of_singleton.
  apply has_keys in Hx. congruence.
Qed.

Lemma keys_delete o k : (delete k o).*1 = List.filter (λ k', negb (bool_decide (k = k'))) (o.*1).
Proof.
  induction o as [|[k' v'] o IH]; csimpl; [done|].
  destruct (decide (k = k')) as [->|Hne].
  - by rewrite bool_decide_true.
  - rewrite bool_decide_false by done. csimpl. by rewrite IH.
Qed.

Lemma elem_of_keys_delete o k k' : k' ∈ (delete k o).*1 ↔ k' ∈ o.*1 ∧ k ≠ k'.
Proof.
  rewrite keys_delete, list_elem_of_In, List.filter_In, <- list_elem_of_In.
  rewrite negb_true_iff, bool_decide_eq_false. done.
Qed.

Lemma get_delete_eq o k : get k (delete k o) = None.
Proof. apply get_None_keys. rewrite elem_of_keys_delete. tauto. Qed.

Lemma get_delete_ne o k k' : k ≠ k' → get k' (delete k o) = get k' o.
Proof.
  intros Hne. induction o as [|[k'' v''] o IH]; simpl; [done|].
  destruct (decide (k = k'')) as [->|Hne']; simpl.
  - by rewrite decide_False.
  - by rewrite IH.
Qed.

Lemma wf_delete o k : wf o → wf (delete k o).
Proof.
  unfold wf. rewrite keys_delete. induction (o.*1) as [|x l IH]; simpl; [done|].
  intros [Hx Hl]%list.NoDup_cons. destruct (negb _); [|by apply IH].
  apply list.NoDup_cons. split; [|by apply IH].
  rewrite list_elem_of_In, List.filter_In, <- list_elem_of_In. tauto.
Qed.

Lemma delete_absent o k : k ∉ o.*1 → delete k o = o.
Proof.
  induction o as [|[k' v'] o IH]; simpl; [done|].
  rewrite not_elem_of_cons. intros [Hne Hk].
  rewrite decide_False by done. by rewrite IH.
Qed.

Lemma length_delete o k :
  wf o → k ∈ o.*1 → S (List.length (delete k o)) = List.length o.
Proof.
  unfold wf. induction o as [|[k' v'] o IH]; simpl.
  - intros _ H. by apply elem_of_nil in H.
  - intros [Hk' Ho]%list.NoDup_cons Hin.
    destruct (decide (k = k')) as [->|Hne].
    + by rewrite delete_absent.
    + simpl. rewrite IH; [done|done|].
      apply elem_of_cons in Hin as [?|?]; done.
Qed.

(** Deleting a list of keys, as the eviction loop does. *)
Lemma get_delete_list o (ks : list string) k :
  get k (foldl (λ c k, delete k c) o ks) =
    if bool_decide (k ∈ ks) then None else get k o.
Proof.
  revert o. induction ks as [|k0 ks IH]; intros o; simpl; [done|].
  rewrite IH. destruct (decide (k = k0)) as [->|Hne].
  - rewrite get_delete_eq. rewrite (bool_decide_true (k0 ∈ k0 :: ks)) by left.
    by destruct (bool_decide _).
  - rewrite get_delete_ne by done.
    rewrite (bool_decide_ext (k ∈ k0 :: ks) (k ∈ ks)); [done|].
    rewrite elem_of_cons. tauto.
Qed.

Lemma wf_delete_list o (ks : list string) :
  wf o → wf (foldl (λ c k, delete k c) o ks).
Proof.
  revert o. induction ks as [|k0 ks IH]; intros o Hwf; simpl; [done|].
  by apply IH, wf_delete.
Qed.

Lemma length_delete_list o (ks : list string) :
  wf o → NoDup ks → ks ⊆ o.*1 →
  List.length (foldl (λ c k, delete k c) o ks) + List.length ks = List.length o.
Proof.
  revert o. induction ks as [|k0 ks IH]; intros o Hwf Hnd Hsub; simpl; [lia|].
  apply list.NoDup_cons in Hnd as [Hk0 Hnd].
  assert (k0 ∈ o.*1) by (apply Hsub; left).
  pose proof (length_delete o k0 Hwf H) as Hlen.
  specialize (IH (delete k0 o) (wf_delete _ _ Hwf) Hnd).
  rewrite <- Hlen, <- IH; [lia|].
  intros x Hx. apply elem_of_keys_delete. split.
  - apply Hsub. by right.
  - intros ->. done.
Qed.
End JsObjectFacts.

(** ** Sorting and key enumeration *)

Section ArraySortFacts.
Context {A : Type} (comparefn : A → A → Z).

Lemma sort_insert_perm x (l : list A) : sort_insert comparefn x l ≡ₚ x :: l.
Proof.
  induction l as [|y l IH]; simpl; [done|].
  destruct (comparefn x y <=? 0)%Z; [done|].
  rewrite IH. apply Permutation_swap.
Qed.

Lemma Array_sort_perm (l : list A) : Array_sort comparefn l ≡ₚ l.
Proof.
  induction l as [|x l IH]; simpl; [done|].
  unfold Array_sort in IH. by rewrite sort_insert_perm, IH.
Qed.

(** A comparator that orders by a numeric rank sorts by that rank. *)
Context (rank : A → nat).
Hypothesis comparefn_rank :
  ∀ a b, (comparefn a b <=? 0)%Z = true ↔ rank a ≤ rank b.

Let by_rank : relation A := λ a b, rank a ≤ rank b.

Lemma sort_insert_sorted x (l : list A) :
  StronglySorted by_rank l → StronglySorted by_rank (sort_insert comparefn x l).
Proof.
  induction 1 as [|y l Hl IH Hy]; simpl.
  - repeat constructor.
  - destruct (comparefn x y <=? 0)%Z eqn:E.
    + apply comparefn_rank in E. constructor; [by constructor|].
      constructor; [done|].
      eapply Forall_impl; [exact Hy|]. unfold by_rank. simpl. lia.
    + assert (rank y ≤ rank x) as Hyx.
      { destruct (decide (rank x ≤ rank y)) as [Hle|]; [|lia].
        apply comparefn_rank in Hle. congruence. }
      constructor; [done|].
      rewrite sort_insert_perm. by constructor.
Qed.

Lemma Array_sort_sorted (l : list A) :
  StronglySorted by_rank (Array_sort comparefn l).
Proof.
  induction l as [|x l IH]; simpl; [constructor|].
  by apply sort_insert_sorted.
Qed.

(** The first [n] elements of the sorted array rank no higher than the
    others. *)
Lemma Array_sort_take_drop (l : list A) n x y :
  x ∈ take n (Array_sort comparefn l) →
  y ∈ drop n (Array_sort comparefn l) →
  rank x ≤ rank y.
Proof.
  intros Hx Hy. pose proof (Array_sort_sorted l) as Hs.
  rewrite <- (take_drop n (Array_sort comparefn l)) in Hs.
  exact (StronglySorted_app_1_elem_of _ _ _ _ _ Hs Hx Hy).
Qed.
End ArraySortFacts.

Lemma filter_split_perm {A : Type} (p : A → bool) (l : list A) :
  List.filter p l ++ List.filter (λ x, negb (p x)) l ≡ₚ l.
Proof.
  induction l as [|x l IH]; simpl; [done|].
  destruct (p x); simpl.
  - by rewrite IH.
  - by rewrite <- Permutation_middle, IH.
Qed.

Lemma Object_keys_perm {V : Type} (o : obj V) : Object_keys o ≡ₚ o.*1.
Proof.
  unfold Object_keys. rewrite Array_sort_perm. apply filter_split_perm.
Qed.

Lemma length_Object_keys {V : Type} (o : obj V) :
  List.length (Object_keys o) = List.length o.
Proof. by rewrite Object_keys_perm, length_fmap. Qed.

Lemma elem_of_Object_keys {V : Type} (o : obj V) k :
  k ∈ Object_keys o ↔ k ∈ o.*1.
Proof. by rewrite Object_keys_perm. Qed.

Lemma compare_hits_le cache a b :
  (compare_hits cache a b <=? 0)%Z = true ↔ hits_of cache a ≤ hits_of cache b.
Proof.
  unfold compare_hits.
  destruct (hits_of cache a <? hits_of cache b) eqn:E1;
    [apply Nat.ltb_lt in E1 | apply Nat.ltb_ge in E1].
  - split; [lia | done].
  - destruct (hits_of cache b <? hits_of cache a) eqn:E2;
      [apply Nat.ltb_lt in E2 | apply Nat.ltb_ge in E2].
    + split; [done | lia].
    + split; [lia | done].
Qed.

(** ** Eviction *)

Section EvictionFacts.
Variable cfg : Settings.
Implicit Types cache : obj IGeocodeCache.

Let sorted cache : list string :=
  Array_sort (compare_hits cache) (Object_keys cache).

Lemma sorted_perm cache : sorted cache ≡ₚ cache.*1.
Proof. unfold sorted. by rewrite Array_sort_perm, Object_keys_perm. Qed.

Lemma evicted_below cache :
  List.length cache ≤ MaxCacheSize cfg + MaxCacheSizeOverflow cfg →
  evicted cfg cache = [].
Proof.
  intros H. unfold evicted. rewrite length_Object_keys.
  by rewrite (proj2 (Nat.ltb_ge _ _) H).
Qed.

Lemma evicted_above cache :
  MaxCacheSize cfg + MaxCacheSizeOverflow cfg < List.length cache →
  evicted cfg cache =
    take (List.length cache - MaxCacheSize cfg) (sorted cache).
Proof.
  intros H. unfold evicted. rewrite length_Object_keys.
  by rewrite (proj2 (Nat.ltb_lt _ _) H).
Qed.

Lemma evicted_sublist cache : evicted cfg cache `sublist_of` sorted cache.
Proof.
  unfold evicted. destruct (_ <? _).
  - apply sublist_take.
  - apply sublist_nil_l.
Qed.

Lemma evicted_keys cache k : k ∈ evicted cfg cache → k ∈ cache.*1.
Proof.
  intros H. rewrite <- sorted_perm.
  eapply elem_of_sublist; [done | apply evicted_sublist].
Qed.

Lemma evicted_NoDup cache : wf cache → NoDup (evicted cfg cache).
Proof.
  intros Hwf. eapply sublist_NoDup; [|apply evicted_sublist].
  by rewrite sorted_perm.
Qed.

Lemma length_evicted cache :
  MaxCacheSize cfg + MaxCacheSizeOverflow cfg < List.length cache →
  List.length (evicted cfg cache) = List.length cache - MaxCacheSize cfg.
Proof.
  intros H. rewrite evicted_above by done.
  apply length_take_le.
  rewrite sorted_perm, length_fmap. lia.
Qed.

Lemma length_evict cache :
  wf cache →
  List.length (evict cfg cache) + List.length (evicted cfg cache) =
    List.length cache.
Proof.
  intros Hwf. unfold evict. apply length_delete_list; [done| |].
  - by apply evicted_NoDup.
  - intros k. apply evicted_keys.
Qed.

(** Every evicted key has a hit count no higher than any key that
    stays. *)
Lemma evicted_lowest cache k k' :
  k ∈ evicted cfg cache → k' ∈ cache.*1 → k' ∉ evicted cfg cache →
  hits_of cache k ≤ hits_of cache k'.
Proof.
  intros Hk Hk' Hnk'.
  destruct (decide (MaxCacheSize cfg + MaxCacheSizeOverflow cfg
                    < List.length cache)) as [Hgt|Hle].
  - rewrite evicted_above in Hk, Hnk' by done.
    rewrite <- sorted_perm in Hk'.
    rewrite <- (take_drop (List.length cache - MaxCacheSize cfg) (sorted cache)),
      elem_of_app in Hk'.
    destruct Hk' as [Hk'|Hk']; [done|].
    exact (Array_sort_take_drop (compare_hits cache) (hits_of cache)
             (compare_hits_le cache) _ _ _ _ Hk Hk').
  - rewrite evicted_below in Hk by lia. by apply elem_of_nil in Hk.
Qed.

Lemma wf_cacheQuery cache q c : wf cache → wf (cacheQuery cfg q c cache).
Proof. intros Hwf. unfold cacheQuery, evict. by apply wf_set, wf_delete_list. Qed.

Lemma get_cacheQuery cache q c k :
  get k (cacheQuery cfg q c cache) =
    if decide (k = gq_key q)
    then Some {| cache_query := q; cache_coordinate := c |}
    else if bool_decide (k ∈ evicted cfg cache) then None else get k cache.
Proof.
  unfold cacheQuery. destruct (decide (k = gq_key q)) as [->|Hne].
  - apply get_set_eq.
  - rewrite get_set_ne by done. apply get_delete_list.
Qed.

(** The size right after an insertion. *)
Lemma length_cacheQuery cache q c :
  wf cache →
  List.length (cacheQuery cfg q c cache) ≤
    if decide (MaxCacheSize cfg + MaxCacheSizeOverflow cfg < List.length cache)
    then S (MaxCacheSize cfg) else S (List.length cache).
Proof.
  intros Hwf. unfold cacheQuery. rewrite length_set.
  pose proof (length_evict cache Hwf) as Hlen.
  case_decide as Hgt.
  - rewrite length_evicted in Hlen by done. destruct (has _ _); lia.
  - rewrite evicted_below in Hlen by lia. simpl in Hlen.
    destruct (has _ _); lia.
Qed.

Lemma wf_hit cache k entry : wf cache → wf (hit k entry cache).
Proof. apply wf_set. Qed.

Lemma length_hit cache k entry :
  get k cache = Some entry → List.length (hit k entry cache) = List.length cache.
Proof.
  intros H. unfold hit. rewrite length_set. unfold has. by rewrite H.
Qed.

Lemma cache_inv_cacheQuery cache q c :
  cache_inv cfg cache → cache_inv cfg (cacheQuery cfg q c cache).
Proof.
  intros [Hwf Hlen]. split; [by apply wf_cacheQuery|].
  pose proof (length_cacheQuery cache q c Hwf) as H.
  case_decide; lia.
Qed.

Lemma cache_inv_op cache op : cache_inv cfg cache → cache_inv cfg (cache_op cfg cache op).
Proof.
  intros Hinv. destruct op as [q c|q]; simpl.
  - by apply cache_inv_cacheQuery.
  - destruct (get (gq_key q) cache) as [entry|] eqn:E; [|done].
    destruct Hinv as [Hwf Hlen]. split; [by apply wf_hit|].
    by rewrite length_hit.
Qed.

Lemma cache_inv_ops cache ops :
  cache_inv cfg cache → cache_inv cfg (foldl (cache_op cfg) cache ops).
Proof.
  revert cache. induction ops as [|op ops IH]; intros cache Hinv; simpl; [done|].
  by apply IH, cache_inv_op.
Qed.
End EvictionFacts.

(** ** The cache bound (C1) and eviction by hit count (C3) *)

(** [five_entries] is a state the cache reaches. *)
Lemma five_entries_reached : cache_ops small_settings five_entries_ops = five_entries.
Proof. vm_compute. reflexivity. Qed.

(** Insertions of fresh keys below the threshold evict nothing. *)
Lemma length_fresh_inserts cfg (qs : list (GeocodeQuery * ref)) cache :
  wf cache →
  NoDup ((λ p, gq_key p.1) <$> qs) →
  (∀ p, p ∈ qs → gq_key p.1 ∉ cache.*1) →
  List.length cache + List.length qs
    ≤ MaxCacheSize cfg + MaxCacheSizeOverflow cfg + 1 →
  List.length
    (foldl (cache_op cfg) cache ((λ p, CacheInsert p.1 p.2) <$> qs))
  = List.length cache + List.length qs.
Proof.
  revert cache. induction qs as [|[q c] qs IH]; intros cache Hwf Hnd Hfresh Hlen.
  - simpl. lia.
  - csimpl in *. apply list.NoDup_cons in Hnd as [Hq Hnd].
    assert (gq_key q ∉ cache.*1) as Hnew by (apply (Hfresh (q, c)); left).
    assert (cacheQuery cfg q c cache
            = set (gq_key q) {| cache_query := q; cache_coordinate := c |} cache)
      as Heq.
    { unfold cacheQuery, evict. rewrite evicted_below by lia. done. }
    rewrite IH; rewrite ?Heq.
    + rewrite length_set.
      destruct (has (gq_key q) cache) eqn:E; [by apply has_keys in E|lia].
    + by apply wf_set.
    + done.
    + intros p Hp. rewrite keys_set.
      destruct (has (gq_key q) cache) eqn:E; [by apply has_keys in E|].
      rewrite not_elem_of_app, list_elem_of_singleton. split.
      * apply Hfresh. by right.
      * intros Heq'. apply Hq. rewrite <- Heq'.
        apply (list_elem_of_fmap_2 (λ p, gq_key p.1) _ _ Hp).
    + rewrite length_set.
      destruct (has (gq_key q) cache) eqn:E; [by apply has_keys in E|lia].
Qed.

Lemma sample_queries_NoDup_of count :
  Forall (λ n, unletters (toLowerCase (sample_address n)) = n) (seq 0 count) →
  NoDup ((λ p : GeocodeQuery * ref, gq_key p.1) <$> sample_queries count).
Proof.
  intros Hdec. unfold sample_queries. rewrite <- list_fmap_compose.
  apply NoDup_fmap_2_strong; [|apply NoDup_seq].
  intros x y Hx Hy Heq.
  change (toLowerCase (sample_address x) = toLowerCase (sample_address y)) in Heq.
  rewrite Forall_forall in Hdec.
  rewrite <- (Hdec x Hx), <- (Hdec y Hy). by rewrite Heq.
Qed.

Lemma sample_queries_NoDup :
  NoDup ((λ p : GeocodeQuery * ref, gq_key p.1) <$> sample_queries 3002).
Proof.
  apply sample_queries_NoDup_of.
  apply (bool_decide_unpack _). vm_compute. exact I.
Qed.

Lemma length_sample_inserts :
  List.length (Object_keys (cache_ops settings (sample_inserts 3002))) = 3002.
Proof.
  rewrite length_Object_keys. unfold cache_ops, sample_inserts.
  rewrite length_fresh_inserts.
  - unfold sample_queries. by rewrite length_fmap, length_seq.
  - unfold wf. constructor.
  - apply sample_queries_NoDup.
  - intros p _. apply not_elem_of_nil.
  - unfold sample_queries. rewrite length_fmap, length_seq. simpl. lia.
Qed.

(** The bound holds in every state the module reaches. *)
Section CacheInvariant.
Variable cfg : Settings.
Variable getBestResultIndexAzure :
  option (list AzureResult → GeocodeQuery → nat).

Lemma findInCache_cache_inv q st :
  cache_inv cfg (geocodeCache st) →
  cache_inv cfg (geocodeCache (findInCache q st).2).
Proof.
  intros Hinv. unfold findInCache.
  destruct (get _ _) as [entry|] eqn:E; simpl; [|done].
  destruct Hinv as [Hwf Hlen]. split; [by apply wf_hit|].
  by rewrite length_hit.
Qed.

Lemma makeRequest_cache_inv item st :
  cache_inv cfg (geocodeCache st) →
  cache_inv cfg (geocodeCache (makeRequest item st)).
Proof.
  intros Hinv. unfold makeRequest.
  pose proof (findInCache_cache_inv (item_query item)
                (with_dispatched (dispatched st ++ [item]) st) Hinv) as H.
  destruct (findInCache _ _) as [[cached|] st']; simpl in *; done.
Qed.

Lemma drain_cache_inv queue st :
  cache_inv cfg (geocodeCache st) →
  cache_inv cfg (geocodeCache (drain cfg queue st)).
Proof.
  revert st. induction queue as [|item queue IH]; intros st Hinv; simpl.
  - by destruct (_ <? _)%Z.
  - destruct (_ <? _)%Z; [|done]. by apply IH, makeRequest_cache_inv.
Qed.

Lemma completeRequest_cache_inv item error coordinate st :
  cache_inv cfg (geocodeCache st) →
  cache_inv cfg (geocodeCache (completeRequest cfg item error coordinate st)).
Proof.
  intros Hinv. unfold completeRequest. simpl.
  destruct error, coordinate; simpl; try done.
  by apply cache_inv_cacheQuery.
Qed.

Lemma settle_cache_inv item outcome st :
  cache_inv cfg (geocodeCache st) →
  cache_inv cfg
    (geocodeCache (settle cfg getBestResultIndexAzure item outcome st)).
Proof.
  intros Hinv. unfold settle, on_catch, on_data.
  destruct outcome as [| | |[[|best rest]|]];
    try by apply completeRequest_cache_inv.
  destruct getBestResultIndexAzure as [f|]; [|by apply completeRequest_cache_inv].
  destruct (_ !! _) as [b|]; [|by apply completeRequest_cache_inv].
  destruct (res_position b) as [pos|]; [|by apply completeRequest_cache_inv].
  by apply (completeRequest_cache_inv item None (Some (List.length (heap st)))
              (with_heap (heap st ++ [coord_of b pos (gq_query (item_query item))]) st)).
Qed.

Lemma step_cache_inv st ev :
  cache_inv cfg (geocodeCache st) →
  cache_inv cfg (geocodeCache (step cfg getBestResultIndexAzure st ev)).
Proof.
  intros Hinv.
  destruct ev as [v|locs r|w|locs|addr|addr cb|id|i outcome|]; simpl; try done.
  - unfold initCache. by destruct (copy _ _).
  - unfold query.
    destruct (truthy_get _ _); [done|]. destruct (truthy_get _ _); [done|].
    destruct (get _ _) as [entry|] eqn:E; simpl; [|done].
    destruct Hinv as [Hwf Hlen]. split; [by apply wf_hit|].
    by rewrite length_hit.
  - unfold query_then.
    destruct (truthy_get _ _); [done|].
    destruct (has _ _); [by destruct (truthy_get _ _)|].
    simpl. unfold geocodeCore.
    pose proof (findInCache_cache_inv (new_GeocodeQuery addr) st Hinv) as H.
    destruct (findInCache _ _) as [[result|] st']; simpl in *; [done|].
    unfold releaseQuota. by apply drain_cache_inv.
  - case_bool_decide; [|done]. unfold releaseQuota. by apply drain_cache_inv.
  - destruct (_ !! _) as [item|]; [|done]. by apply settle_cache_inv.
  - unfold reset, clearTimeout. simpl.
    destruct (dequeueTimeoutId st); simpl; (split; [constructor | simpl; lia]).
Qed.

Lemma run_cache_inv st evs :
  cache_inv cfg (geocodeCache st) →
  cache_inv cfg (geocodeCache (run cfg getBestResultIndexAzure st evs)).
Proof.
  revert st. induction evs as [|ev evs IH]; intros st Hinv; simpl; [done|].
  by apply IH, step_cache_inv.
Qed.
End CacheInvariant.

(** C1, as the spec states it, fails: with the settings of the module, 3002
    insertions of distinct addresses leave 3002 entries, more than
    [MaxCacheSize + 1]. *)
Lemma cache_size_exceeds_MaxCacheSize_plus_1 :
  ¬ (List.length (Object_keys (cache_ops settings (sample_inserts 3002)))
     ≤ MaxCacheSize settings + 1).
Proof. rewrite length_sample_inserts. simpl. lia. Qed.

(** C1 (amended): after any sequence of insertions and lookups on the
    adaptive cache, a further insertion leaves at most [MaxCacheSize + 1]
    entries when it finds more than [MaxCacheSize + MaxCacheSizeOverflow],
    and at most one more than it finds otherwise; in both cases at most
    [MaxCacheSize + MaxCacheSizeOverflow + 1]. The same bound holds for
    [getCacheSize()] in every state the module reaches. *)
Theorem cache_size_bound (cfg : Settings) (ops : list CacheOp)
    (query : GeocodeQuery) (coordinate : ref)
    (getBestResultIndexAzure : option (list AzureResult → GeocodeQuery → nat))
    (evs : list Event) :
  let before := List.length (Object_keys (cache_ops cfg ops)) in
  let after :=
    List.length (Object_keys (cacheQuery cfg query coordinate (cache_ops cfg ops))) in
  after ≤ (if decide (MaxCacheSize cfg + MaxCacheSizeOverflow cfg < before)
           then MaxCacheSize cfg + 1 else before + 1)
  ∧ after ≤ MaxCacheSize cfg + MaxCacheSizeOverflow cfg + 1
  ∧ getCacheSize (run cfg getBestResultIndexAzure init_state evs)
    ≤ MaxCacheSize cfg + MaxCacheSizeOverflow cfg + 1.
Proof.
  intros before after. subst before after.
  unfold getCacheSize. rewrite !length_Object_keys.
  assert (cache_inv cfg (cache_ops cfg ops)) as [Hwf Hlen].
  { apply cache_inv_ops. split; [constructor | simpl; lia]. }
  pose proof (length_cacheQuery cfg _ query coordinate Hwf) as H.
  destruct (run_cache_inv cfg getBestResultIndexAzure init_state evs) as [_ Hrun].
  { split; [constructor | simpl; lia]. }
  repeat case_decide; lia.
Qed.

(** C3: an insertion that finds more than [MaxCacheSize +
    MaxCacheSizeOverflow] entries removes [currentSize - MaxCacheSize]
    distinct keys of the cache; apart from the key being inserted, exactly
    those are gone afterwards and every other entry is as it was; and no
    removed entry has a higher hit count than an entry that was not
    removed. *)
Theorem eviction_removes_lowest_hit_counts (cfg : Settings)
    (cache : obj IGeocodeCache) (query : GeocodeQuery) (coordinate : ref) :
  wf cache →
  MaxCacheSize cfg + MaxCacheSizeOverflow cfg < List.length (Object_keys cache) →
  List.length (evicted cfg cache)
    = List.length (Object_keys cache) - MaxCacheSize cfg
  ∧ NoDup (evicted cfg cache)
  ∧ (∀ k, k ∈ evicted cfg cache → is_Some (get k cache))
  ∧ (∀ k, k ≠ gq_key query →
       get k (cacheQuery cfg query coordinate cache)
       = if bool_decide (k ∈ evicted cfg cache) then None else get k cache)
  ∧ get (gq_key query) (cacheQuery cfg query coordinate cache)
    = Some {| cache_query := query; cache_coordinate := coordinate |}
  ∧ (∀ k k', k ∈ evicted cfg cache → k' ∉ evicted cfg cache →
       is_Some (get k' cache) → hits_of cache k ≤ hits_of cache k').
Proof.
  intros Hwf Hsize. rewrite length_Object_keys in *. split_and!.
  - by apply length_evicted.
  - by apply evicted_NoDup.
  - intros k Hk. by apply keys_get_Some, (evicted_keys cfg).
  - intros k Hne. rewrite get_cacheQuery. by rewrite decide_False.
  - rewrite get_cacheQuery. by rewrite decide_True.
  - intros k k' Hk Hk' [e He]. apply (evicted_lowest cfg); [done| |done].
    by eapply get_Some_keys.
Qed.

(** The example of the spec: of the hit counts 5, 0, 3, 1, 8 an eviction of
    two removes the entries with 0 and 1 and keeps those with 5, 3, 8. *)
Lemma eviction_of_two_of_five :
  wf five_entries
  ∧ MaxCacheSize small_settings + MaxCacheSizeOverflow small_settings
      < List.length (Object_keys five_entries)
  ∧ List.length (evicted small_settings five_entries) = 2
  ∧ hits_of five_entries <$> evicted small_settings five_entries = [0; 1]
  ∧ (λ e, getCacheHits (cache_query e.2))
      <$> cacheQuery small_settings (new_GeocodeQuery "F") 5 five_entries
    = [5; 3; 8; 0]
  ∧ (∀ k k', k ∈ evicted small_settings five_entries →
       k' ∉ evicted small_settings five_entries →
       is_Some (get k' five_entries) →
       hits_of five_entries k ≤ hits_of five_entries k').
Proof.
  assert (wf five_entries) as Hwf.
  { apply (bool_decide_unpack _). vm_compute. exact I. }
  assert (MaxCacheSize small_settings + MaxCacheSizeOverflow small_settings
          < List.length (Object_keys five_entries)) as Hsize.
  { vm_compute. lia. }
  destruct (eviction_removes_lowest_hit_counts small_settings five_entries
              (new_GeocodeQuery "F") 5 Hwf Hsize) as (Hlen & _ & _ & _ & _ & Hlow).
  split_and!; [exact Hwf | exact Hsize | exact Hlen | reflexivity | reflexivity
              | exact Hlow].
Defined.

(** ** The dispatcher *)

Section DispatcherFacts.
Variable cfg : Settings.
Variable getBestResultIndexAzure :
  option (list AzureResult → GeocodeQuery → nat).

Local Abbreviation Max := (Z.of_nat (MaxAzureRequest cfg)).
Local Abbreviation drain := (drain cfg).
Local Abbreviation releaseQuota := (releaseQuota cfg).
Local Abbreviation completeRequest := (completeRequest cfg).
Local Abbreviation settle := (settle cfg getBestResultIndexAzure).
Local Abbreviation geocodeCore := (geocodeCore cfg).
Local Abbreviation query_then := (query_then cfg).
Local Abbreviation step := (step cfg getBestResultIndexAzure).
Local Abbreviation run := (run cfg getBestResultIndexAzure).

(** What [makeRequest] leaves alone. *)
Lemma makeRequest_frame item st :
  activeRequests (makeRequest item st) = activeRequests st
  ∧ geocodeQueue (makeRequest item st) = geocodeQueue st
  ∧ dispatched (makeRequest item st) = dispatched st ++ [item]
  ∧ dequeueTimeoutId (makeRequest item st) = dequeueTimeoutId st
  ∧ _injected (makeRequest item st) = _injected st
  ∧ _initCache (makeRequest item st) = _initCache st.
Proof.
  unfold makeRequest, findInCache. simpl.
  destruct (get _ _); simpl; done.
Qed.

Lemma completeRequest_frame item error coordinate st :
  activeRequests (completeRequest item error coordinate st) = activeRequests st
  ∧ geocodeQueue (completeRequest item error coordinate st) = geocodeQueue st
  ∧ dispatched (completeRequest item error coordinate st) = dispatched st
  ∧ fetching (completeRequest item error coordinate st) = fetching st
  ∧ _injected (completeRequest item error coordinate st) = _injected st
  ∧ _initCache (completeRequest item error coordinate st) = _initCache st.
Proof.
  unfold completeRequest. simpl.
  destruct error, coordinate; simpl; done.
Qed.

Lemma settle_frame item outcome st :
  activeRequests (settle item outcome st) = activeRequests st
  ∧ geocodeQueue (settle item outcome st) = geocodeQueue st
  ∧ dispatched (settle item outcome st) = dispatched st
  ∧ fetching (settle item outcome st) = fetching st
  ∧ _injected (settle item outcome st) = _injected st
  ∧ _initCache (settle item outcome st) = _initCache st.
Proof.
  unfold settle, on_catch, on_data.
  destruct outcome as [| | |[[|best rest]|]];
    try apply completeRequest_frame.
  destruct getBestResultIndexAzure as [f|]; [|apply completeRequest_frame].
  destruct (_ !! _) as [b|]; [|apply completeRequest_frame].
  destruct (res_position b) as [pos|]; [|apply completeRequest_frame].
  exact (completeRequest_frame item None (Some (List.length (heap st)))
           (with_heap (heap st ++ [coord_of b pos (gq_query (item_query item))]) st)).
Qed.

(** The loop dispatches the head of the queue as long as a slot is
    free: [n] items, where [n] is the smaller of the free slots and the
    length of the queue. *)
Lemma drain_spec queue st :
  let n := Z.to_nat (Max - activeRequests st) `min` List.length queue in
  dispatched (drain queue st) = dispatched st ++ take n queue
  ∧ geocodeQueue (drain queue st) = drop n queue
  ∧ activeRequests (drain queue st) = (activeRequests st + Z.of_nat n)%Z.
Proof.
  revert st. induction queue as [|item queue IH]; intros st; simpl.
  - rewrite Nat.min_0_r. simpl. rewrite app_nil_r, Z.add_0_r.
    by destruct (_ <? _)%Z.
  - destruct (activeRequests st <? Max)%Z eqn:E;
      [apply Z.ltb_lt in E | apply Z.ltb_ge in E].
    + destruct (IH (makeRequest item
                      (with_geocodeQueue queue
                         (with_activeRequests (activeRequests st + 1) st))))
        as (Hd & Hq & Ha).
      destruct (makeRequest_frame item
                  (with_geocodeQueue queue
                     (with_activeRequests (activeRequests st + 1) st)))
        as (Ha' & _ & Hd' & _).
      simpl in Ha', Hd'. rewrite Ha', Hd' in *.
      replace (Z.to_nat (Max - activeRequests st))
        with (S (Z.to_nat (Max - (activeRequests st + 1)))) by lia.
      simpl. rewrite Hd, Hq, Ha, <- app_assoc. simpl.
      split_and!; [done|done|lia].
    + replace (Z.to_nat (Max - activeRequests st)) with 0 by lia.
      simpl. by rewrite app_nil_r, Z.add_0_r.
Qed.

Lemma drain_bound queue st :
  (activeRequests st ≤ Max)%Z → (activeRequests (drain queue st) ≤ Max)%Z.
Proof.
  intros H. destruct (drain_spec queue st) as (_ & _ & ->). lia.
Qed.

Lemma releaseQuota_spec decrement st :
  let n :=
    Z.to_nat (Max - (activeRequests st - decrement))
    `min` List.length (geocodeQueue st) in
  dispatched (releaseQuota decrement st) = dispatched st ++ take n (geocodeQueue st)
  ∧ geocodeQueue (releaseQuota decrement st) = drop n (geocodeQueue st)
  ∧ activeRequests (releaseQuota decrement st)
    = (activeRequests st - decrement + Z.of_nat n)%Z.
Proof.
  exact (drain_spec (geocodeQueue st)
           (with_activeRequests (activeRequests st - decrement) st)).
Qed.

Lemma releaseQuota_bound decrement st :
  (0 ≤ decrement)%Z → (activeRequests st ≤ Max)%Z →
  (activeRequests (releaseQuota decrement st) ≤ Max)%Z.
Proof.
  intros Hd H. unfold releaseQuota. apply drain_bound. simpl. lia.
Qed.

Lemma geocodeCore_bound q cb st :
  (activeRequests st ≤ Max)%Z → (activeRequests (geocodeCore q cb st) ≤ Max)%Z.
Proof.
  intros H. unfold geocodeCore, findInCache.
  destruct (get _ _); simpl; [done|].
  by apply releaseQuota_bound.
Qed.

Lemma step_bound st ev :
  (activeRequests st ≤ Max)%Z → (activeRequests (step st ev) ≤ Max)%Z.
Proof.
  intros H. destruct ev; simpl; try done.
  - unfold initCache. destruct (copy _ _). done.
  - unfold query. repeat (destruct (truthy_get _ _) || destruct (get _ _)); done.
  - unfold query_then.
    destruct (truthy_get _ _); [done|].
    destruct (has _ _).
    + destruct (truthy_get _ _); done.
    + by apply geocodeCore_bound.
  - case_bool_decide; [|done]. by apply releaseQuota_bound.
  - destruct (_ !! _); [|done].
    by destruct (settle_frame i0 outcome
                   (with_fetching (take i (fetching st) ++ drop (S i) (fetching st)) st))
      as (-> & _).
  - unfold reset, clearTimeout. simpl. destruct (dequeueTimeoutId st); simpl; lia.
Qed.

Lemma run_bound st evs :
  (activeRequests st ≤ Max)%Z → (activeRequests (run st evs) ≤ Max)%Z.
Proof.
  revert st. induction evs as [|ev evs IH]; intros st H; simpl; [done|].
  by apply IH, step_bound.
Qed.
End DispatcherFacts.

(** ** The concurrency cap (C2) and the order of dispatch (C6) *)

(** C2: whatever the calls, timers and responses, the counter of in-flight
    requests never exceeds [MaxAzureRequest] between two turns of the event
    loop; and a release leaves the counter at its decremented value plus
    the number of free slots it could fill from the queue, so the loop
    stops at the cap. *)
Theorem activeRequests_never_exceeds_MaxAzureRequest (cfg : Settings)
    (getBestResultIndexAzure : option (list AzureResult → GeocodeQuery → nat))
    (evs : list Event) (decrement : Z) (st : State) :
  (activeRequests (run cfg getBestResultIndexAzure init_state evs)
   ≤ Z.of_nat (MaxAzureRequest cfg))%Z
  ∧ activeRequests (releaseQuota cfg decrement st)
    = (activeRequests st - decrement
       + Z.of_nat
           (Z.to_nat (Z.of_nat (MaxAzureRequest cfg)
                      - (activeRequests st - decrement))
            `min` List.length (geocodeQueue st)))%Z.
Proof.
  split.
  - apply run_bound. simpl. lia.
  - by destruct (releaseQuota_spec cfg decrement st) as (_ & _ & ->).
Qed.

(** C6: a release dispatches a prefix of the queue, head first, and leaves
    the rest queued in the same order; a submission that misses the cache
    joins the queue at its tail, so the dispatched items followed by the
    queued ones are the earlier ones followed by the new one. *)
Theorem dispatch_is_fifo (cfg : Settings) (decrement : Z) (st : State)
    (geocodeQuery : GeocodeQuery) (then_ : callback) :
  let n :=
    Z.to_nat (Z.of_nat (MaxAzureRequest cfg) - (activeRequests st - decrement))
    `min` List.length (geocodeQueue st) in
  dispatched (releaseQuota cfg decrement st)
    = dispatched st ++ take n (geocodeQueue st)
  ∧ geocodeQueue (releaseQuota cfg decrement st) = drop n (geocodeQueue st)
  ∧ dispatched (geocodeCore cfg geocodeQuery then_ st)
      ++ geocodeQueue (geocodeCore cfg geocodeQuery then_ st)
    = dispatched st ++ geocodeQueue st
      ++ match get (gq_key geocodeQuery) (geocodeCache st) with
         | Some _ => []
         | None => [{| item_query := geocodeQuery; item_then := then_ |}]
         end.
Proof.
  intros n. subst n. split_and!.
  - by destruct (releaseQuota_spec cfg decrement st) as (-> & _ & _).
  - by destruct (releaseQuota_spec cfg decrement st) as (_ & -> & _).
  - unfold geocodeCore, findInCache.
    destruct (get _ _); simpl; [by rewrite app_nil_r|].
    match goal with
    | |- context [releaseQuota cfg 0 ?s] =>
        destruct (releaseQuota_spec cfg 0 s) as (-> & -> & _)
    end.
    simpl. by rewrite <- app_assoc, take_drop.
Qed.

(** The example of the spec: three items wait at capacity; when a slot
    frees, the oldest is dispatched, and the next one only at the next
    release. *)
Lemma fifo_at_capacity :
  let st := run settings module_scope init_state nine_requests in
  let st1 := run settings module_scope st [ESettle 0 FetchRejected; ETimer 1] in
  let st2 := run settings module_scope st1 [ESettle 0 FetchRejected; ETimer 2] in
  activeRequests st = 6%Z
  ∧ geocodeQueue st = [sample_item 6; sample_item 7; sample_item 8]
  ∧ dispatched st1 = dispatched st ++ [sample_item 6]
  ∧ geocodeQueue st1 = [sample_item 7; sample_item 8]
  ∧ dispatched st2 = dispatched st ++ [sample_item 6; sample_item 7]
  ∧ geocodeQueue st2 = [sample_item 8].
Proof. vm_compute. done. Qed.

(** ** Completion of a request (C4, C5) *)

Section CompletionFacts.
Variable cfg : Settings.

Lemma completeRequest_error item err st :
  delivered (completeRequest cfg item (Some err) None st)
    = delivered st ++ [absent item]
  ∧ geocodeCache (completeRequest cfg item (Some err) None st)
    = geocodeCache st
  ∧ heap (completeRequest cfg item (Some err) None st) = heap st.
Proof. done. Qed.

Lemma settle_failed getBestResultIndexAzure item outcome st :
  failed outcome = true →
  delivered (settle cfg getBestResultIndexAzure item outcome st)
    = delivered st ++ [absent item]
  ∧ geocodeCache (settle cfg getBestResultIndexAzure item outcome st)
    = geocodeCache st.
Proof.
  destruct outcome as [| | |[[|best rest]|]]; simpl; done.
Qed.

(** What the success path of [makeRequest] delivers once a candidate is
    chosen: a new object with the fields of [coord_of]. *)
Lemma settle_found getBestResultIndexAzure f item results best pos st :
  getBestResultIndexAzure = Some f →
  results ≠ [] →
  results !! f results (item_query item) = Some best →
  res_position best = Some pos →
  delivered (settle cfg getBestResultIndexAzure item (FetchJson (Some results)) st)
    = delivered st ++
        [{| d_request := gq_query (item_query item);
            d_then := item_then item;
            d_arg := Some (List.length (heap st));
            d_seen := Some (coord_of best pos (gq_query (item_query item))) |}].
Proof.
  intros -> Hne Hbest Hpos. destruct results as [|r rs]; [done|].
  unfold settle, on_data. rewrite Hbest, Hpos.
  unfold alloc, completeRequest, call_then, write_address. simpl.
  rewrite list_lookup_alter, decide_True by done.
  rewrite lookup_app_r, Nat.sub_diag by lia. reflexivity.
Qed.
End CompletionFacts.

(** C4, the behaviour the claim describes, with the selection function the
    module defines ([getBestResultIndex]) bound to the name it calls: the
    first candidate is chosen, and the location has its position, its type
    or ["Geography"], the name from the fallback chain and the query text
    as address. *)
Lemma first_candidate_mapping (cfg : Settings) (item : IGeocodeQueueItem)
    (best : AzureResult) (rest : list AzureResult) (pos : Position) (st : State) :
  res_position best = Some pos →
  let query := gq_query (item_query item) in
  let loc := coord_of best pos query in
  delivered (settle cfg (Some getBestResultIndex) item
               (FetchJson (Some (best :: rest))) st)
    = delivered st ++
        [{| d_request := query; d_then := item_then item;
            d_arg := Some (List.length (heap st)); d_seen := Some loc |}]
  ∧ loc_latitude loc = lat pos
  ∧ loc_longitude loc = lon pos
  ∧ loc_type loc = first_truthy (res_type best) "Geography"
  ∧ loc_name loc
    = first_truthy (res_poi best ≫= poi_name)
        (first_truthy (res_address best ≫= freeformAddress) query)
  ∧ loc_address loc = query.
Proof.
  intros Hpos query loc. split_and!; try done.
  by apply (settle_found cfg _ getBestResultIndex).
Qed.

(** C4 on the module as it is: [makeRequest] calls
    [getBestResultIndexAzure], a name the module does not define, so the
    handler of a non-empty result list throws, the [catch] handler
    completes the request with an absent location, and nothing is
    cached. *)
Theorem nonempty_response_completes_absent (cfg : Settings)
    (item : IGeocodeQueueItem) (best : AzureResult) (rest : list AzureResult)
    (st : State) :
  on_data cfg module_scope item (Some (best :: rest)) st = inl ReferenceError
  ∧ delivered (settle cfg module_scope item (FetchJson (Some (best :: rest))) st)
    = delivered st ++ [absent item]
  ∧ geocodeCache (settle cfg module_scope item (FetchJson (Some (best :: rest))) st)
    = geocodeCache st.
Proof. done. Qed.

(** C5: when a dispatched request fails, its callback is called with an
    absent location and the cache, hence its size, is as before. *)
Theorem failure_completes_absent_and_caches_nothing (cfg : Settings)
    (getBestResultIndexAzure : option (list AzureResult → GeocodeQuery → nat))
    (st : State) (i : nat) (item : IGeocodeQueueItem) (outcome : FetchOutcome) :
  fetching st !! i = Some item →
  failed outcome = true →
  let st' := step cfg getBestResultIndexAzure st (ESettle i outcome) in
  delivered st' = delivered st ++ [absent item]
  ∧ geocodeCache st' = geocodeCache st
  ∧ getCacheSize st' = getCacheSize st.
Proof.
  intros Hitem Hfail. simpl. rewrite Hitem.
  match goal with
  | |- context [settle cfg _ item outcome ?s] =>
      destruct (settle_failed cfg getBestResultIndexAzure item outcome s Hfail)
        as [Hd Hc]
  end.
  unfold getCacheSize. rewrite Hd, Hc. done.
Qed.

Lemma empty_result_completes_absent :
  let st := run settings module_scope init_state [EQueryThen "Nowhere" 7] in
  let item := {| item_query := new_GeocodeQuery "Nowhere"; item_then := 7 |} in
  let st' := step settings module_scope st (ESettle 0 (FetchJson (Some []))) in
  fetching st = [item]
  ∧ delivered st' = delivered st ++ [absent item]
  ∧ geocodeCache st' = geocodeCache st
  ∧ getCacheSize st' = getCacheSize st.
Proof.
  split; [reflexivity|].
  apply (failure_completes_absent_and_caches_nothing settings module_scope
           (run settings module_scope init_state [EQueryThen "Nowhere" 7]) 0);
    reflexivity.
Defined.

(** ** The override store (C7, C10) *)

Lemma lookup_write_address r a st :
  heap (write_address r a st) !! r = set_address a <$> heap st !! r.
Proof.
  unfold write_address. simpl. by rewrite list_lookup_alter, decide_True.
Qed.

(** C7, as stated, fails: a key can be present in the override store with
    a falsy value (a call with [reset] installs the caller's map as it
    is). Both lookups then pass the store by: with a location for the same
    address in the snapshot, the synchronous lookup returns the snapshot's
    object and the asynchronous one calls back with it, not with the
    store's value. *)
Lemma falsy_override_is_answered_from_snapshot :
  let st := run settings module_scope init_state falsy_override_and_snapshot in
  has "a" (_injected st) = true
  ∧ get "a" (_injected st) = Some None
  ∧ truthy_get "a" (_initCache st) = Some 1
  ∧ (query "a" st).1 = Some 1
  ∧ ∃ st', query_then settings "a" 7 st = Some st'
      ∧ delivered st'
        = [{| d_request := "a"; d_then := 7; d_arg := Some 1;
              d_seen := Some (mkLocation 3%Z 4%Z "Snapshot" "s" "a") |}].
Proof. split_and!; try reflexivity. eexists. split; reflexivity. Qed.

(** C7 (amended): an address the override store maps to a location (a
    truthy value) is answered from the store, whatever the snapshot and
    the adaptive cache hold: the synchronous lookup returns the stored
    object and changes nothing; the asynchronous one calls back at once
    with the stored object, its address set to the requested text, and
    reaches neither the cache nor the provider. *)
Theorem override_precedence (cfg : Settings) (addr : string) (then_ : callback)
    (st : State) (loc : ref) :
  truthy_get addr (_injected st) = Some loc →
  query addr st = (Some loc, st)
  ∧ ∃ st', query_then cfg addr then_ st = Some st'
      ∧ delivered st'
        = delivered st ++
            [{| d_request := addr; d_then := then_; d_arg := Some loc;
                d_seen := set_address addr <$> heap st !! loc |}]
      ∧ _injected st' = _injected st
      ∧ geocodeCache st' = geocodeCache st
      ∧ dispatched st' = dispatched st
      ∧ fetching st' = fetching st.
Proof.
  intros Hloc. unfold query, query_then. rewrite Hloc. split; [done|].
  eexists. split; [done|].
  unfold call_then. simpl.
  rewrite list_lookup_alter, decide_True by done. done.
Qed.

Lemma override_precedence_three_tiers :
  truthy_get "Paris" (_injected three_tiers) = Some 0
  ∧ truthy_get "Paris" (_initCache three_tiers) = Some 1
  ∧ (cache_coordinate <$> get "paris" (geocodeCache three_tiers)) = Some 2
  ∧ query "Paris" three_tiers = (Some 0, three_tiers)
  ∧ ∃ st', query_then settings "Paris" 7 three_tiers = Some st'
      ∧ delivered st'
        = [{| d_request := "Paris"; d_then := 7; d_arg := Some 0;
              d_seen := Some (mkLocation 1%Z 2%Z "Override" "o" "Paris") |}]
      ∧ dispatched st' = [] ∧ fetching st' = [].
Proof.
  destruct (override_precedence settings "Paris" 7 three_tiers 0 eq_refl)
    as (Hq & st' & Hqt & Hd & _ & _ & Hdi & Hf).
  split_and!; [reflexivity | reflexivity | reflexivity | exact Hq |].
  exists st'. split_and!; [exact Hqt | exact Hd | exact Hdi | exact Hf].
Defined.

Section StoreFacts.
Implicit Types m locs : StringMap.

Lemma no_falsy_set m k r : no_falsy m → no_falsy (set k (Some r) m).
Proof.
  unfold no_falsy. induction 1 as [|[k' v'] m Hv Hm IH]; simpl.
  - repeat constructor. by eexists.
  - destruct (decide (k = k')); constructor; simpl; eauto.
Qed.

Lemma no_falsy_delete m k : no_falsy m → no_falsy (delete k m).
Proof.
  unfold no_falsy. induction 1 as [|[k' v'] m Hv Hm IH]; simpl; [constructor|].
  destruct (decide (k = k')); [done|]. by constructor.
Qed.

Lemma no_falsy_inject_keys locs m ks :
  no_falsy m → no_falsy (foldl (inject_key locs) m ks).
Proof.
  revert m. induction ks as [|k ks IH]; intros m Hm; simpl; [done|].
  apply IH. unfold inject_key.
  destruct (truthy_get k locs); [by apply no_falsy_set | by apply no_falsy_delete].
Qed.

Lemma no_falsy_remove_keys h w m ks :
  no_falsy m → no_falsy (foldl (remove_key h w) m ks).
Proof.
  revert m. induction ks as [|k ks IH]; intros m Hm; simpl; [done|].
  apply IH. unfold remove_key. destruct (w _); [by apply no_falsy_delete | done].
Qed.

(** In a store without falsy values the truthiness test of the lookup
    succeeds exactly on the keys of the store. *)
Lemma no_falsy_truthy m k :
  no_falsy m → is_Some (truthy_get k m) ↔ has k m = true.
Proof.
  unfold no_falsy, truthy_get, has. induction 1 as [|[k' v'] m Hv Hm IH]; simpl.
  - split; [by intros [? ?] | done].
  - destruct (decide (k = k')); [|done]. simpl in *.
    destruct Hv as [r ->]. simpl. split; [done | by eexists].
Qed.
End StoreFacts.

Section StoreInvariant.
Variable cfg : Settings.
Variable getBestResultIndexAzure :
  option (list AzureResult → GeocodeQuery → nat).

Lemma drain_stores queue st :
  _injected (drain cfg queue st) = _injected st
  ∧ _initCache (drain cfg queue st) = _initCache st.
Proof.
  revert st. induction queue as [|item queue IH]; intros st; simpl.
  - by destruct (_ <? _)%Z.
  - destruct (_ <? _)%Z; [|done].
    match goal with
    | |- context [drain cfg queue (makeRequest item ?s)] =>
        destruct (IH (makeRequest item s)) as [-> ->];
        destruct (makeRequest_frame item s) as (_ & _ & _ & _ & -> & ->)
    end.
    done.
Qed.

(** Only [inject] and [remove] change the override store. *)
Lemma step_injected st ev :
  _injected (step cfg getBestResultIndexAzure st ev) =
    match ev with
    | EInject locs r => inject_map locs r (_injected st)
    | ERemove w => remove_map (heap st) w (_injected st)
    | _ => _injected st
    end.
Proof.
  destruct ev; simpl; try done.
  - unfold initCache. by destruct (copy _ _).
  - unfold query. repeat (destruct (truthy_get _ _) || destruct (get _ _)); done.
  - unfold query_then.
    destruct (truthy_get _ _); [done|].
    destruct (has _ _).
    + destruct (truthy_get _ _); done.
    + unfold geocodeCore, findInCache. destruct (get _ _); simpl; [done|].
      unfold releaseQuota.
      match goal with
      | |- context [drain cfg ?q ?s] => by destruct (drain_stores q s) as [-> _]
      end.
  - case_bool_decide; [|done]. unfold releaseQuota.
    match goal with
    | |- context [drain cfg ?q ?s] => by destruct (drain_stores q s) as [-> _]
    end.
  - destruct (_ !! _) as [item|]; [|done].
    match goal with
    | |- context [settle cfg _ item outcome ?s] =>
        by destruct (settle_frame cfg getBestResultIndexAzure item outcome s)
          as (_ & _ & _ & _ & -> & _)
    end.
  - unfold reset, clearTimeout. simpl. by destruct (dequeueTimeoutId st).
Qed.

Lemma run_no_falsy st evs :
  no_falsy (_injected st) → Forall no_falsy (installed evs) →
  no_falsy (_injected (run cfg getBestResultIndexAzure st evs)).
Proof.
  revert st. induction evs as [|ev evs IH]; intros st Hst Hevs; simpl; [done|].
  apply IH.
  - rewrite step_injected. destruct ev as [|locs r| | | | | | |]; try done.
    + unfold inject_map. destruct r.
      * unfold installed in Hevs. simpl in Hevs.
        by apply Forall_cons in Hevs as [? _].
      * by apply no_falsy_inject_keys.
    + by apply no_falsy_remove_keys.
  - unfold installed in *. simpl in Hevs.
    destruct ev as [|locs [|]| | | | | | |]; simpl in Hevs; try done.
    by apply Forall_cons in Hevs as [_ ?].
Qed.
End StoreInvariant.

(** C10, as stated, fails: a call with [reset] installs the caller's map
    as it is, falsy values included; the key is in the store and the
    truthiness test of the lookup fails on it. *)
Lemma reset_installs_falsy_value :
  let store :=
    _injected (run settings module_scope init_state
                 [EInject (Some [("a", None)]) true]) in
  get "a" store = Some None
  ∧ ¬ no_falsy store
  ∧ ¬ (is_Some (truthy_get "a" store) ↔ has "a" store = true).
Proof.
  simpl. split_and!.
  - reflexivity.
  - intros [[? [=]] _]%list.Forall_cons.
  - intros [_ H]. by destruct (H eq_refl).
Qed.

(** C10 (amended): as long as no call with [reset] installs a map with a
    falsy value, the override store never maps a key to a falsy value: a
    falsy value in a merge deletes the key. The truthiness test of the
    lookup then succeeds exactly on the keys of the store, for every
    address that is not the name of a property inherited from
    [Object.prototype] (on such a name the test succeeds although the
    store has no such key), the maps merged having no own property
    [__proto__]. *)
Theorem override_store_has_no_falsy_value (cfg : Settings)
    (getBestResultIndexAzure : option (list AzureResult → GeocodeQuery → nat))
    (evs : list Event) :
  Forall no_falsy (installed evs) →
  Forall no_proto_key (merged evs) →
  let store := _injected (run cfg getBestResultIndexAzure init_state evs) in
  no_falsy store
  ∧ ∀ addr, plain_name addr = true →
      (is_Some (truthy_get addr store) ↔ has addr store = true).
Proof.
  intros Hevs _ store.
  assert (no_falsy store) as Hstore.
  { apply run_no_falsy; [constructor | done]. }
  split; [done|]. intros addr _. by apply no_falsy_truthy.
Qed.

Lemma override_store_after_merge :
  let store := _injected (run settings module_scope init_state store_calls) in
  store = [("123 Main St", Some 0)]
  ∧ no_falsy store
  ∧ ∀ addr, plain_name addr = true →
      (is_Some (truthy_get addr store) ↔ has addr store = true).
Proof.
  split; [reflexivity|].
  apply (override_store_has_no_falsy_value settings module_scope store_calls).
  - constructor.
  - constructor; [|constructor]. unfold no_proto_key.
    apply (bool_decide_unpack _). vm_compute. exact I.
Defined.

(** ** [reset] (C9) *)


Lemma requests_cons ev evs : requests (ev :: evs) = requests [ev] ++ requests evs.
Proof. unfold requests. simpl. by destruct ev. Qed.

Section AfterReset.
Variable cfg : Settings.
Variable getBestResultIndexAzure :
  option (list AzureResult → GeocodeQuery → nat).

Lemma settle_delivers item outcome st :
  ∃ d, delivered (settle cfg getBestResultIndexAzure item outcome st)
       = delivered st ++ [d]
    ∧ d_then d = item_then item
    ∧ d_request d = gq_query (item_query item).
Proof.
  unfold settle, on_catch, on_data.
  destruct outcome as [| | |[[|best rest]|]]; try (by eexists).
  destruct getBestResultIndexAzure as [f|]; [|by eexists].
  destruct (_ !! _) as [b|]; [|by eexists].
  destruct (res_position b) as [pos|]; [|by eexists].
  by eexists.
Qed.



End AfterReset.


(** The release that [makeRequest] schedules on a hit in the cache is never
    recorded, so [reset] cannot cancel it either. *)
Lemma reset_leaves_untracked_release_pending :
  let st :=
    run settings (Some getBestResultIndex) init_state cached_dispatch_then_reset in
  List.length (delivered st) = 2
  ∧ activeRequests st = 0%Z
  ∧ timers st = [2]
  ∧ activeRequests (step settings (Some getBestResultIndex) st (ETimer 2))
    = (-1)%Z.
Proof. vm_compute. done. Qed.

(** ** The address of a delivered location (C8) *)

Section AddressFacts.
Variable cfg : Settings.
Variable getBestResultIndexAzure :
  option (list AzureResult → GeocodeQuery → nat).
Variable R : list (string * callback).

Lemma addressed_after_write (h : list ILocation) (r : ref) a v :
  alter (set_address a) r h !! r = Some v → loc_address v = a.
Proof.
  rewrite list_lookup_alter, decide_True by done.
  intros (x & _ & ->)%fmap_Some. done.
Qed.

Lemma Forall_snoc {A} (P : A → Prop) l x :
  Forall P l → P x → Forall P (l ++ [x]).
Proof. intros. apply Forall_app. split; [done | by constructor]. Qed.

Lemma makeRequest_ok item st :
  item_ok R item → state_ok R st → state_ok R (makeRequest item st).
Proof.
  intros Hitem (Hd & Hf & Hq). unfold makeRequest, findInCache. simpl.
  destruct (get _ _); unfold state_ok; simpl; split_and!; try done.
  - apply Forall_snoc; [done|]. split; [|done].
    intros v. simpl. apply addressed_after_write.
  - by apply Forall_snoc.
Qed.

Lemma drain_ok queue st :
  Forall (item_ok R) queue → state_ok R st → state_ok R (drain cfg queue st).
Proof.
  intros Hqueue. revert st.
  induction Hqueue as [|item queue Hitem Hqueue IH]; intros st (Hd & Hf & Hq);
    simpl.
  - destruct (_ <? _)%Z; (split_and!; simpl; [done|done|constructor]).
  - destruct (_ <? _)%Z.
    + apply IH. apply makeRequest_ok; [done|]. by split_and!.
    + split_and!; simpl; [done|done|by constructor].
Qed.

Lemma releaseQuota_ok decrement st :
  state_ok R st → state_ok R (releaseQuota cfg decrement st).
Proof.
  intros (Hd & Hf & Hq). unfold releaseQuota. apply drain_ok; [done|].
  by split_and!.
Qed.

Lemma completeRequest_ok item error coordinate st :
  item_ok R item → state_ok R st →
  state_ok R (completeRequest cfg item error coordinate st).
Proof.
  intros Hitem (Hd & Hf & Hq). unfold completeRequest. simpl.
  destruct error as [err|], coordinate as [c|];
    unfold state_ok; simpl; split_and!; try done.
  - apply Forall_snoc; [done|]. by split.
  - apply Forall_snoc; [done|]. by split.
  - apply Forall_snoc; [done|]. split; [|done].
    intros v. simpl. apply addressed_after_write.
Qed.

Lemma settle_ok item outcome st :
  item_ok R item → state_ok R st →
  state_ok R (settle cfg getBestResultIndexAzure item outcome st).
Proof.
  intros Hitem Hst. unfold settle, on_catch, on_data.
  destruct outcome as [| | |[[|best rest]|]];
    try by apply completeRequest_ok.
  destruct getBestResultIndexAzure as [f|]; [|by apply completeRequest_ok].
  destruct (_ !! _) as [b|]; [|by apply completeRequest_ok].
  destruct (res_position b) as [pos|]; [|by apply completeRequest_ok].
  apply (completeRequest_ok item None (Some (List.length (heap st)))
           (with_heap (heap st ++ [coord_of b pos (gq_query (item_query item))]) st));
    done.
Qed.
End AddressFacts.

Section AddressInvariant.
Variable cfg : Settings.
Variable getBestResultIndexAzure :
  option (list AzureResult → GeocodeQuery → nat).

Lemma state_ok_mono R R' st : R ⊆ R' → state_ok R st → state_ok R' st.
Proof.
  intros Hsub (Hd & Hf & Hq). split_and!.
  - eapply Forall_impl; [done|]. intros d [? ?]. split; [done | by apply Hsub].
  - eapply Forall_impl; [done|]. intros item ?. by apply Hsub.
  - eapply Forall_impl; [done|]. intros item ?. by apply Hsub.
Qed.

Lemma step_ok R st ev :
  state_ok R st →
  state_ok (R ++ requests [ev]) (step cfg getBestResultIndexAzure st ev).
Proof.
  intros Hst.
  assert (state_ok (R ++ requests [ev]) st) as Hst'.
  { eapply state_ok_mono; [|done]. intros x Hx. apply elem_of_app. by left. }
  destruct ev as [v|locs r|w|locs|addr|addr cb|id|i outcome|]; simpl.
  - done.
  - done.
  - done.
  - unfold initCache. by destruct (copy _ _).
  - unfold query. repeat (destruct (truthy_get _ _) || destruct (get _ _)); done.
  - assert ((addr, cb) ∈ R ++ requests [EQueryThen addr cb]) as Hreq.
    { apply elem_of_app. right. simpl. left. }
    destruct Hst' as (Hd & Hf & Hq).
    unfold query_then.
    destruct (truthy_get addr (_injected st)) as [loc|]; simpl.
    { split_and!; simpl; [|done..]. apply Forall_snoc; [done|].
      split; [|done]. intros v. simpl. apply addressed_after_write. }
    destruct (has _ _).
    { destruct (truthy_get _ _) as [loc|]; simpl; [|by split_and!].
      split_and!; simpl; [|done..]. apply Forall_snoc; [done|].
      split; [|done]. intros v. simpl. apply addressed_after_write. }
    simpl. unfold geocodeCore, findInCache.
    destruct (get _ _); simpl.
    { split_and!; simpl; [|done..]. apply Forall_snoc; [done|].
      split; [|done]. intros v. simpl. apply addressed_after_write. }
    apply releaseQuota_ok. split_and!; simpl; [done|done|].
    by apply Forall_snoc.
  - case_bool_decide; [|done]. apply releaseQuota_ok.
    destruct Hst' as (Hd & Hf & Hq). by split_and!.
  - destruct (fetching st !! i) as [item|] eqn:E; [|done].
    destruct Hst' as (Hd & Hf & Hq).
    apply settle_ok.
    + rewrite Forall_forall in Hf. apply Hf.
      by eapply list_elem_of_lookup_2.
    + split_and!; simpl; [done| |done].
      apply Forall_app. split.
      * by apply Forall_take.
      * by apply Forall_drop.
  - destruct Hst' as (Hd & Hf & Hq).
    unfold reset, clearTimeout. simpl.
    destruct (dequeueTimeoutId st); simpl; split_and!; simpl; done.
Qed.

Lemma run_ok R st evs :
  state_ok R st →
  state_ok (R ++ requests evs) (run cfg getBestResultIndexAzure st evs).
Proof.
  revert R st. induction evs as [|ev evs IH]; intros R st Hst.
  - simpl. by rewrite app_nil_r.
  - rewrite requests_cons, app_assoc. simpl. by apply IH, step_ok.
Qed.
End AddressInvariant.

(** The synchronous lookup hands out the stored object as it is: it writes
    no address. *)
Lemma query_leaves_heap (addr : string) (st : State) :
  heap (query addr st).2 = heap st.
Proof.
  unfold query.
  repeat (destruct (truthy_get _ _) || destruct (get _ _)); done.
Qed.

(** In every state the module reaches, a callback that was called with a
    location saw, at the instant of the call, the address text of a
    request made with that very text and that callback. *)
Lemma callbacks_see_the_requested_address (cfg : Settings)
    (getBestResultIndexAzure : option (list AzureResult → GeocodeQuery → nat))
    (evs : list Event) (d : Delivery) (v : ILocation) :
  d ∈ delivered (run cfg getBestResultIndexAzure init_state evs) →
  d_seen d = Some v →
  loc_address v = d_request d ∧ (d_request d, d_then d) ∈ requests evs.
Proof.
  intros Hd Hv.
  destruct (run_ok cfg getBestResultIndexAzure [] init_state evs) as (Hok & _).
  { split_and!; constructor. }
  rewrite Forall_forall in Hok. destruct (Hok d Hd) as [Haddr Hreq].
  split; [by apply Haddr | done].
Qed.

(** C8: each tier that has the answer calls the callback with its
    location, and the address of that location is rewritten to the text of
    the request just before. In turn: the override store; the snapshot;
    the adaptive cache when the request is made; the adaptive cache when
    the item is dispatched; the provider, once a candidate is chosen (the
    new location is cached and delivered with the text of the item as its
    address). This is so whether the callback returns or throws; after a
    callback that throws, the only further call the provider tier makes
    carries no location. And whatever the calls, a callback never receives
    a location with another address than the text it was requested with.
    The addresses are those on which the embedding is exact: for the
    snapshot and the cache, not the name of an inherited property; for the
    cache, ASCII text. *)
Theorem every_tier_delivers_the_requested_address (cfg : Settings)
    (getBestResultIndexAzure : option (list AzureResult → GeocodeQuery → nat))
    (addr : string) (then_ : callback) (st : State) :
  (∀ loc,
     truthy_get addr (_injected st) = Some loc →
     ∃ st', query_then cfg addr then_ st = Some st'
       ∧ (∀ raises, (query_then_raising cfg raises addr then_ st).1 = st')
       ∧ delivered st' = delivered st ++ [delivery_of addr then_ loc st]
       ∧ heap st' !! loc = set_address addr <$> heap st !! loc)
  ∧ (∀ loc,
       plain_name addr = true →
       truthy_get addr (_injected st) = None →
       truthy_get addr (_initCache st) = Some loc →
       ∃ st', query_then cfg addr then_ st = Some st'
         ∧ (∀ raises, (query_then_raising cfg raises addr then_ st).1 = st')
         ∧ delivered st' = delivered st ++ [delivery_of addr then_ loc st]
         ∧ heap st' !! loc = set_address addr <$> heap st !! loc)
  ∧ (∀ entry,
       plain_name addr = true →
       ascii_text addr = true →
       truthy_get addr (_injected st) = None →
       has addr (_initCache st) = false →
       get (toLowerCase addr) (geocodeCache st) = Some entry →
       ∃ st', query_then cfg addr then_ st = Some st'
         ∧ (∀ raises, (query_then_raising cfg raises addr then_ st).1 = st')
         ∧ delivered st'
           = delivered st ++ [delivery_of addr then_ (cache_coordinate entry) st]
         ∧ heap st' !! cache_coordinate entry
           = set_address addr <$> heap st !! cache_coordinate entry)
  ∧ (∀ item entry,
       get (gq_key (item_query item)) (geocodeCache st) = Some entry →
       let st' := makeRequest item st in
       let text := gq_query (item_query item) in
       (∀ raises, (makeRequest_raising raises item st).1 = st')
       ∧ delivered st'
         = delivered st
             ++ [delivery_of text (item_then item) (cache_coordinate entry) st]
       ∧ heap st' !! cache_coordinate entry
         = set_address text <$> heap st !! cache_coordinate entry)
  ∧ (∀ raises item f results best pos,
       getBestResultIndexAzure = Some f →
       results ≠ [] →
       results !! f results (item_query item) = Some best →
       res_position best = Some pos →
       let st' :=
         settle_raising cfg getBestResultIndexAzure raises item
           (FetchJson (Some results)) st in
       let text := gq_query (item_query item) in
       let loc := List.length (heap st) in
       let found :=
         {| d_request := text; d_then := item_then item; d_arg := Some loc;
            d_seen := Some (coord_of best pos text) |} in
       delivered st'
       = delivered st
           ++ found :: match raises found with
                       | Some _ => [absent item]
                       | None => []
                       end
       ∧ heap st' !! loc = Some (coord_of best pos text)
       ∧ loc_address (coord_of best pos text) = text
       ∧ (cache_coordinate <$> get (gq_key (item_query item)) (geocodeCache st'))
         = Some loc)
  ∧ (∀ evs d v,
       d ∈ delivered (run cfg getBestResultIndexAzure init_state evs) →
       d_seen d = Some v →
       loc_address v = d_request d ∧ (d_request d, d_then d) ∈ requests evs).
Proof.
  split_and!.
  - intros loc Hloc. unfold query_then, query_then_raising. rewrite Hloc.
    eexists. split; [done|]. split; [by intros raises|].
    unfold call_then, delivery_of. simpl.
    rewrite !list_lookup_alter, !decide_True by done. done.
  - intros loc _ Hinj Hsnap. unfold query_then, query_then_raising.
    rewrite Hinj, Hsnap.
    assert (has addr (_initCache st) = true) as ->.
    { unfold truthy_get, has in *. by destruct (get addr (_initCache st)). }
    eexists. split; [done|]. split; [by intros raises|].
    unfold call_then, delivery_of. simpl.
    rewrite !list_lookup_alter, !decide_True by done. done.
  - intros entry _ _ Hinj Hsnap Hget. unfold query_then, query_then_raising.
    rewrite Hinj, Hsnap.
    unfold geocodeCore, geocodeCore_raising, findInCache.
    change (gq_key (new_GeocodeQuery addr)) with (toLowerCase addr).
    rewrite Hget.
    eexists. split; [done|]. split; [by intros raises|].
    unfold call_then, delivery_of. simpl.
    rewrite !list_lookup_alter, !decide_True by done. done.
  - intros item entry Hget st' text. subst st' text.
    unfold makeRequest, makeRequest_raising, findInCache. simpl. rewrite Hget.
    split; [by intros raises|].
    unfold call_then, delivery_of. simpl.
    rewrite !list_lookup_alter, !decide_True by done. done.
  - intros raises item f results best pos -> Hne Hbest Hpos st' text loc found.
    subst st'. destruct results as [|r rs]; [done|].
    unfold settle_raising, on_data_raising, on_catch_raising.
    rewrite Hbest, Hpos. unfold alloc. simpl.
    rewrite list_lookup_alter, decide_True by done.
    rewrite lookup_app_r, Nat.sub_diag by lia. simpl.
    match goal with
    | |- context [raises ?d] => change (raises d) with (raises found)
    end.
    destruct (raises found) as [err|]; simpl;
      rewrite ?list_lookup_alter, ?decide_True by done;
      rewrite ?lookup_app_r, ?Nat.sub_diag by lia; simpl;
      rewrite get_cacheQuery, decide_True by done;
      rewrite <- ?app_assoc; done.
  - intros evs d v. apply callbacks_see_the_requested_address.
Qed.

(** The three tiers of [three_tiers] in turn, a hit at dispatch, a
    provider success with a callback that throws, and Scenario B of the
    spec: after the override is set, the resolution calls back within the
    call, with the address ["123 Main St"]. *)
Lemma each_tier_delivers_Paris :
  (∃ st', query_then settings "Paris" 7 three_tiers = Some st'
     ∧ delivered st'
       = [{| d_request := "Paris"; d_then := 7; d_arg := Some 0;
             d_seen := Some (mkLocation 1%Z 2%Z "Override" "o" "Paris") |}])
  ∧ (∃ st', query_then settings "Paris" 7 snapshot_and_cache = Some st'
       ∧ delivered st'
         = [{| d_request := "Paris"; d_then := 7; d_arg := Some 1;
               d_seen := Some (mkLocation 3%Z 4%Z "Snapshot" "s" "Paris") |}])
  ∧ (∃ st', query_then settings "PARIS" 7 cache_only = Some st'
       ∧ delivered st'
         = [{| d_request := "PARIS"; d_then := 7; d_arg := Some 2;
               d_seen := Some (mkLocation 5%Z 6%Z "Cached" "c" "PARIS") |}])
  ∧ delivered (makeRequest paris_item cache_only)
    = [{| d_request := "Paris"; d_then := 7; d_arg := Some 2;
          d_seen := Some (mkLocation 5%Z 6%Z "Cached" "c" "Paris") |}]
  ∧ delivered (settle_raising settings (Some getBestResultIndex) always_raises
                 paris_item (FetchJson (Some [sample_result])) init_state)
    = [{| d_request := "Paris"; d_then := 7; d_arg := Some 0;
          d_seen :=
            Some (mkLocation 48%Z 2%Z "Geography" "Paris, France" "Paris") |};
       absent paris_item]
  ∧ (∃ st', query_then settings "123 Main St" 7
              (run settings module_scope init_state override_is_set) = Some st'
       ∧ delivered st'
         = [{| d_request := "123 Main St"; d_then := 7; d_arg := Some 0;
               d_seen :=
                 Some (mkLocation 40%Z (-74)%Z "Address" "Home" "123 Main St") |}]).
Proof.
  destruct (every_tier_delivers_the_requested_address settings module_scope
              "Paris" 7 three_tiers) as (Hover & _).
  destruct (every_tier_delivers_the_requested_address settings module_scope
              "Paris" 7 snapshot_and_cache) as (_ & Hsnap & _).
  destruct (every_tier_delivers_the_requested_address settings
              (Some getBestResultIndex) "PARIS" 7 cache_only)
    as (_ & _ & Hcache & Hdispatch & _).
  destruct (every_tier_delivers_the_requested_address settings
              (Some getBestResultIndex) "Paris" 7 init_state)
    as (_ & _ & _ & _ & Hprovider & _).
  destruct (every_tier_delivers_the_requested_address settings module_scope
              "123 Main St" 7
              (run settings module_scope init_state override_is_set))
    as (Hset & _).
  split_and!.
  - destruct (Hover 0 eq_refl) as (st' & Hq & _ & Hd & _).
    exists st'. split; [exact Hq | exact Hd].
  - destruct (Hsnap 1 eq_refl eq_refl eq_refl) as (st' & Hq & _ & Hd & _).
    exists st'. split; [exact Hq | exact Hd].
  - destruct (Hcache {| cache_query := new_GeocodeQuery "Paris";
                        cache_coordinate := 2 |}
                eq_refl eq_refl eq_refl eq_refl eq_refl)
      as (st' & Hq & _ & Hd & _).
    exists st'. split; [exact Hq | exact Hd].
  - destruct (Hdispatch paris_item
                {| cache_query := new_GeocodeQuery "Paris";
                   cache_coordinate := 2 |} eq_refl) as (_ & Hd & _).
    exact Hd.
  - destruct (Hprovider always_raises paris_item getBestResultIndex
                [sample_result] sample_result {| lat := 48%Z; lon := 2%Z |}
                eq_refl ltac:(discriminate) eq_refl eq_refl) as (Hd & _).
    exact Hd.
  - destruct (Hset 0 eq_refl) as (st' & Hq & _ & Hd & _).
    exists st'. split; [exact Hq | exact Hd].
Defined.

(** ** What [reset] cancels and drops (C9) *)

(** The trace of calls plays no part in what the module does: calls
    recorded earlier stay in front of those a turn adds. *)
Section TraceFrame.
Variable cfg : Settings.
Variable getBestResultIndexAzure :
  option (list AzureResult → GeocodeQuery → nat).







End TraceFrame.



(** * Further properties of the module *)

(** ** The override store: [inject] and [remove] *)

Section StoreLookups.
Implicit Types m locs : StringMap.

Lemma get_inject_keys locs m (ks : list string) k :
  get k (foldl (inject_key locs) m ks) =
    if bool_decide (k ∈ ks) then Some <$> truthy_get k locs else get k m.
Proof.
  revert m. induction ks as [|k0 ks IH]; intros m; simpl; [done|].
  rewrite IH. destruct (decide (k = k0)) as [->|Hne].
  - rewrite (bool_decide_true (k0 ∈ k0 :: ks)) by left.
    assert (get k0 (inject_key locs m k0) = Some <$> truthy_get k0 locs) as ->.
    { unfold inject_key. destruct (truthy_get k0 locs); simpl.
      - apply get_set_eq.
      - apply get_delete_eq. }
    by destruct (bool_decide _).
  - rewrite (bool_decide_ext (k ∈ k0 :: ks) (k ∈ ks))
      by (rewrite elem_of_cons; tauto).
    assert (get k (inject_key locs m k0) = get k m) as ->; [|done].
    unfold inject_key. destruct (truthy_get k0 locs).
    + by apply get_set_ne.
    + by apply get_delete_ne.
Qed.

Lemma get_remove_keys (h : list ILocation) w m (ks : list string) k :
  get k (foldl (remove_key h w) m ks) =
    if bool_decide (k ∈ ks) && w (truthy_get k m ≫= λ r, h !! r)
    then None else get k m.
Proof.
  revert m. induction ks as [|k0 ks IH]; intros m; simpl; [done|].
  rewrite IH. destruct (decide (k = k0)) as [->|Hne].
  - rewrite (bool_decide_true (k0 ∈ k0 :: ks)) by left. simpl.
    unfold remove_key.
    destruct (w (truthy_get k0 m ≫= λ r, h !! r)) eqn:E.
    + rewrite get_delete_eq. by destruct (_ && _).
    + rewrite E. by rewrite andb_false_r.
  - rewrite (bool_decide_ext (k ∈ k0 :: ks) (k ∈ ks))
      by (rewrite elem_of_cons; tauto).
    assert (get k (remove_key h w m k0) = get k m) as Hget.
    { unfold remove_key. destruct (w _); [by apply get_delete_ne | done]. }
    unfold truthy_get. by rewrite Hget.
Qed.
End StoreLookups.

(** X1: a merge ([inject] without [reset]) answers every key of the given
    map from that map — a truthy value is stored, a falsy one removes the
    key — and leaves every other key of the store as it was. *)
Theorem inject_merges_key_by_key (locs m : StringMap) (k : string) :
  get k (inject_map (Some locs) false m)
  = match get k locs with
    | Some (Some loc) => Some (Some loc)
    | Some None => None
    | None => get k m
    end.
Proof.
  unfold inject_map, keys. simpl. rewrite get_inject_keys.
  destruct (get k locs) as [v|] eqn:E.
  - rewrite bool_decide_true
      by (apply elem_of_Object_keys; by eapply get_Some_keys).
    unfold truthy_get. rewrite E. by destruct v.
  - rewrite bool_decide_false; [done|].
    rewrite elem_of_Object_keys. by apply get_None_keys.
Qed.

(** X2: [remove(where)] deletes exactly the keys whose stored value
    satisfies the predicate and leaves the other entries as they were. *)
Theorem remove_deletes_matching (h : list ILocation)
    (where_ : option ILocation → bool) (m : StringMap) (k : string) :
  get k (remove_map h where_ m)
  = if where_ (truthy_get k m ≫= λ r, h !! r) then None else get k m.
Proof.
  unfold remove_map, keys. rewrite get_remove_keys.
  destruct (get k m) as [v|] eqn:E.
  - rewrite bool_decide_true
      by (apply elem_of_Object_keys; by eapply get_Some_keys).
    done.
  - by destruct (_ && _), (where_ _).
Qed.

(** ** The adaptive cache: lookups and insertions *)

(** X3: the synchronous lookup starts nothing: it calls no callback, queues
    and dispatches no request, sets no timer and writes to no location; of
    the cache it changes neither the keys nor their number. [latitude] and
    [longitude] leave the state that [query] leaves. *)
Theorem query_starts_nothing (addr : string) (st : State) :
  let st' := (query addr st).2 in
  delivered st' = delivered st
  ∧ geocodeQueue st' = geocodeQueue st
  ∧ fetching st' = fetching st
  ∧ dispatched st' = dispatched st
  ∧ activeRequests st' = activeRequests st
  ∧ timers st' = timers st
  ∧ heap st' = heap st
  ∧ _injected st' = _injected st
  ∧ _initCache st' = _initCache st
  ∧ (geocodeCache st').*1 = (geocodeCache st).*1
  ∧ getCacheSize st' = getCacheSize st
  ∧ (latitude addr st).2 = st'
  ∧ (longitude addr st).2 = st'.
Proof.
  unfold latitude, longitude, getCacheSize, query.
  destruct (truthy_get addr (_injected st)); [by split_and!|].
  destruct (truthy_get addr (_initCache st)); [by split_and!|].
  destruct (get _ _) as [entry|] eqn:E; [|by split_and!].
  simpl. split_and!; try done.
  - unfold hit. rewrite keys_set. unfold has. by rewrite E.
  - rewrite !length_Object_keys. by apply length_hit.
Qed.

(** X4: a lookup that finds its key returns the cached coordinate and
    counts one hit on that entry; the hit counts of the other entries and
    the keys of the cache stay as they were. *)
Theorem findInCache_counts_one_hit (query : GeocodeQuery) (st : State)
    (entry : IGeocodeCache) :
  get (gq_key query) (geocodeCache st) = Some entry →
  let st' := (findInCache query st).2 in
  (findInCache query st).1 = Some (cache_coordinate entry)
  ∧ (∀ k, hits_of (geocodeCache st') k
          = if decide (k = gq_key query)
            then S (hits_of (geocodeCache st) k)
            else hits_of (geocodeCache st) k)
  ∧ (∀ k, cache_coordinate <$> get k (geocodeCache st')
          = cache_coordinate <$> get k (geocodeCache st))
  ∧ (geocodeCache st').*1 = (geocodeCache st).*1.
Proof.
  intros Hget. unfold findInCache. rewrite Hget. simpl. split_and!.
  - done.
  - intros k. unfold hits_of, hit. destruct (decide (k = gq_key query)) as [->|Hne].
    + by rewrite get_set_eq, Hget.
    + by rewrite get_set_ne.
  - intros k. unfold hit. destruct (decide (k = gq_key query)) as [->|Hne].
    + by rewrite get_set_eq, Hget.
    + by rewrite get_set_ne.
  - unfold hit. rewrite keys_set. unfold has. by rewrite Hget.
Qed.

Lemma findInCache_counts_one_hit_on_C :
  let st := with_geocodeCache five_entries init_state in
  let st' := (findInCache (new_GeocodeQuery "C") st).2 in
  (findInCache (new_GeocodeQuery "C") st).1 = Some 2
  ∧ hits_of (geocodeCache st') <$> ["a"; "b"; "c"; "d"; "e"] = [5; 0; 4; 1; 8].
Proof.
  destruct (findInCache_counts_one_hit (new_GeocodeQuery "C")
              (with_geocodeCache five_entries init_state)
              (entry_with_hits "C" 3 2).2 eq_refl) as (H1 & _).
  split; [exact H1 | reflexivity].
Defined.

(** X5: an insertion that finds no more than [MaxCacheSize +
    MaxCacheSizeOverflow] entries removes nothing: every other entry is as
    it was, the new entry is stored under its key, and the size grows by
    one for a new key and not at all for a key already cached, whose entry
    (hit count included) is replaced. *)
Theorem insertion_below_threshold (cfg : Settings) (cache : obj IGeocodeCache)
    (query : GeocodeQuery) (coordinate : ref) :
  List.length (Object_keys cache) ≤ MaxCacheSize cfg + MaxCacheSizeOverflow cfg →
  let cache' := cacheQuery cfg query coordinate cache in
  (∀ k, k ≠ gq_key query → get k cache' = get k cache)
  ∧ get (gq_key query) cache'
    = Some {| cache_query := query; cache_coordinate := coordinate |}
  ∧ List.length (Object_keys cache')
    = if has (gq_key query) cache
      then List.length (Object_keys cache)
      else S (List.length (Object_keys cache)).
Proof.
  intros Hsize. rewrite length_Object_keys in Hsize. simpl.
  assert (cacheQuery cfg query coordinate cache
          = set (gq_key query)
              {| cache_query := query; cache_coordinate := coordinate |} cache)
    as ->.
  { unfold cacheQuery, evict. by rewrite evicted_below. }
  split_and!.
  - intros k Hne. by apply get_set_ne.
  - apply get_set_eq.
  - rewrite !length_Object_keys. apply length_set.
Qed.

Lemma insertion_below_threshold_replaces_A :
  let cache' := cacheQuery small_settings (new_GeocodeQuery "a") 9 two_entries in
  List.length (Object_keys cache') = 2
  ∧ hits_of cache' <$> ["a"; "b"] = [0; 0]
  ∧ get "b" cache' = get "b" two_entries.
Proof.
  destruct (insertion_below_threshold small_settings two_entries
              (new_GeocodeQuery "a") 9) as (H1 & _ & H3).
  { vm_compute. lia. }
  split_and!; [exact H3 | reflexivity | apply H1; discriminate].
Defined.

(** X6: an insertion that finds more than [MaxCacheSize +
    MaxCacheSizeOverflow] entries trims the cache to exactly
    [MaxCacheSize] entries before it stores the new one; afterwards the
    cache holds [MaxCacheSize + 1] entries, or [MaxCacheSize] when the key
    inserted is one that survived. *)
Theorem eviction_trims_to_MaxCacheSize (cfg : Settings)
    (cache : obj IGeocodeCache) (query : GeocodeQuery) (coordinate : ref) :
  wf cache →
  MaxCacheSize cfg + MaxCacheSizeOverflow cfg < List.length (Object_keys cache) →
  List.length (Object_keys (evict cfg cache)) = MaxCacheSize cfg
  ∧ List.length (Object_keys (cacheQuery cfg query coordinate cache))
    = if has (gq_key query) (evict cfg cache)
      then MaxCacheSize cfg else S (MaxCacheSize cfg).
Proof.
  intros Hwf Hsize. rewrite !length_Object_keys in *.
  pose proof (length_evict cfg cache Hwf) as Hlen.
  rewrite length_evicted in Hlen by done.
  assert (List.length (evict cfg cache) = MaxCacheSize cfg) as Htrim by lia.
  split; [done|].
  unfold cacheQuery. rewrite length_set, Htrim. done.
Qed.

Lemma eviction_trims_five_to_three :
  List.length (Object_keys (evict small_settings five_entries)) = 3
  ∧ List.length
      (Object_keys (cacheQuery small_settings (new_GeocodeQuery "F") 5 five_entries))
    = 4
  ∧ List.length
      (Object_keys (cacheQuery small_settings (new_GeocodeQuery "E") 5 five_entries))
    = 3.
Proof.
  assert (wf five_entries) as Hwf.
  { apply (bool_decide_unpack _). vm_compute. exact I. }
  assert (MaxCacheSize small_settings + MaxCacheSizeOverflow small_settings
          < List.length (Object_keys five_entries)) as Hsize.
  { vm_compute. lia. }
  destruct (eviction_trims_to_MaxCacheSize small_settings five_entries
              (new_GeocodeQuery "F") 5 Hwf Hsize) as (H1 & H2).
  destruct (eviction_trims_to_MaxCacheSize small_settings five_entries
              (new_GeocodeQuery "E") 5 Hwf Hsize) as (_ & H3).
  split_and!; [exact H1 | exact H2 | exact H3].
Defined.

(** ** The tiers of [query] *)

(** X7: once a request for an ASCII text has completed with a coordinate,
    an ASCII address with the same lower-case form that neither the
    override store nor the snapshot answers (and that is not the name of
    an inherited property) is served from the cache: the synchronous
    lookup returns the coordinate, and the asynchronous one calls back at
    once with it, without queueing or dispatching anything. *)
Theorem completed_request_is_served_from_cache (cfg : Settings)
    (asked : string) (cb : callback) (c : ref) (st : State)
    (addr : string) (then_ : callback) :
  ascii_text asked = true →
  ascii_text addr = true →
  plain_name addr = true →
  toLowerCase addr = toLowerCase asked →
  truthy_get addr (_injected st) = None →
  has addr (_initCache st) = false →
  let item := {| item_query := new_GeocodeQuery asked; item_then := cb |} in
  let st1 := completeRequest cfg item None (Some c) st in
  (query addr st1).1 = Some c
  ∧ ∃ st2, query_then cfg addr then_ st1 = Some st2
      ∧ delivered st2
        = delivered st1 ++
            [{| d_request := addr; d_then := then_; d_arg := Some c;
                d_seen := set_address addr <$> heap st1 !! c |}]
      ∧ geocodeQueue st2 = geocodeQueue st1
      ∧ dispatched st2 = dispatched st1
      ∧ fetching st2 = fetching st1
      ∧ activeRequests st2 = activeRequests st1.
Proof.
  intros _ _ _ Hkey Hinj Hsnap item st1.
  assert (_injected st1 = _injected st ∧ _initCache st1 = _initCache st)
    as [Hi Hs].
  { destruct (completeRequest_frame cfg item None (Some c) st)
      as (_ & _ & _ & _ & ? & ?). done. }
  assert (get (toLowerCase addr) (geocodeCache st1)
          = Some {| cache_query := item_query item; cache_coordinate := c |})
    as Hget.
  { subst st1. unfold completeRequest. simpl.
    by rewrite Hkey, get_cacheQuery, decide_True. }
  assert (truthy_get addr (_initCache st) = None) as Hsnap'.
  { unfold truthy_get, has in *. by destruct (get addr (_initCache st)). }
  split.
  - unfold query. by rewrite Hi, Hinj, Hs, Hsnap', Hget.
  - unfold query_then. rewrite Hi, Hinj, Hs, Hsnap.
    eexists. split; [done|].
    unfold geocodeCore, findInCache.
    change (gq_key (new_GeocodeQuery addr)) with (toLowerCase addr).
    rewrite Hget. simpl.
    rewrite !list_lookup_alter, !decide_True by done. done.
Qed.

Lemma paris_is_served_from_cache :
  let st := (alloc (mkLocation 48%Z 2%Z "Geography" "Paris" "Paris") init_state).2 in
  let st1 := completeRequest settings paris_item None (Some 0) st in
  (query "PARIS" st1).1 = Some 0
  ∧ ∃ st2, query_then settings "PARIS" 8 st1 = Some st2
      ∧ delivered st2
        = delivered st1 ++
            [{| d_request := "PARIS"; d_then := 8; d_arg := Some 0;
                d_seen := set_address "PARIS" <$> heap st1 !! 0 |}]
      ∧ geocodeQueue st2 = geocodeQueue st1
      ∧ dispatched st2 = dispatched st1
      ∧ fetching st2 = fetching st1
      ∧ activeRequests st2 = activeRequests st1.
Proof.
  apply (completed_request_is_served_from_cache settings "Paris" 7 0
           (alloc (mkLocation 48%Z 2%Z "Geography" "Paris" "Paris") init_state).2
           "PARIS" 8); reflexivity.
Defined.





(** ** Submission, release and completion *)

Section Throttle.
Variable cfg : Settings.
Variable getBestResultIndexAzure :
  option (list AzureResult → GeocodeQuery → nat).

Local Abbreviation Max := (Z.of_nat (MaxAzureRequest cfg)).

Lemma drain_at_capacity queue st :
  (Max ≤ activeRequests st)%Z → drain cfg queue st = with_geocodeQueue queue st.
Proof.
  intros H. destruct queue; simpl; by rewrite (proj2 (Z.ltb_ge _ _) H).
Qed.

Lemma drain_nil st :
  drain cfg [] st = with_geocodeQueue [] st.
Proof. simpl. by destruct (_ <? _)%Z. Qed.

(** After a release no request waits while a slot is free. *)
Lemma releaseQuota_busy decrement st :
  geocodeQueue (releaseQuota cfg decrement st) = []
  ∨ (Max ≤ activeRequests (releaseQuota cfg decrement st))%Z.
Proof.
  destruct (releaseQuota_spec cfg decrement st) as (_ & Hq & Ha).
  rewrite Hq, Ha.
  destruct (decide (List.length (geocodeQueue st)
                    ≤ Z.to_nat (Max - (activeRequests st - decrement)))) as [Hle|Hgt].
  - left. apply drop_ge. lia.
  - right. lia.
Qed.

Lemma step_busy st ev :
  geocodeQueue st = [] ∨ (Max ≤ activeRequests st)%Z →
  let st' := step cfg getBestResultIndexAzure st ev in
  geocodeQueue st' = [] ∨ (Max ≤ activeRequests st')%Z.
Proof.
  intros H. destruct ev as [v|locs r|w|locs|addr|addr cb|id|i outcome|]; simpl;
    try done.
  - unfold initCache. by destruct (copy _ _).
  - unfold query.
    repeat (destruct (truthy_get _ _) || destruct (get _ _)); done.
  - unfold query_then.
    destruct (truthy_get _ _); [done|].
    destruct (has _ _); [by destruct (truthy_get _ _)|].
    simpl. unfold geocodeCore, findInCache.
    destruct (get _ _); simpl; [done|]. apply releaseQuota_busy.
  - case_bool_decide; [|done]. apply releaseQuota_busy.
  - destruct (_ !! _) as [item|]; [|done].
    match goal with
    | |- context [settle cfg _ item outcome ?s] =>
        destruct (settle_frame cfg getBestResultIndexAzure item outcome s)
          as (-> & -> & _)
    end.
    done.
  - left. unfold reset, clearTimeout. simpl. by destruct (dequeueTimeoutId st).
Qed.

Lemma run_busy st evs :
  geocodeQueue st = [] ∨ (Max ≤ activeRequests st)%Z →
  let st' := run cfg getBestResultIndexAzure st evs in
  geocodeQueue st' = [] ∨ (Max ≤ activeRequests st')%Z.
Proof.
  revert st. induction evs as [|ev evs IH]; intros st H; simpl; [done|].
  by apply IH, step_busy.
Qed.
End Throttle.

(** X10: a request that no tier answers, for an ASCII address such that
    neither it nor its lower-case form is the name of an inherited
    property, is dispatched within the call when the queue is empty and a
    slot is free — it goes to [fetch] and takes the slot — and joins the
    tail of the queue, with nothing dispatched, when no slot is free. In
    both cases no callback is called. *)
Theorem submission_dispatches_or_queues (cfg : Settings) (addr : string)
    (then_ : callback) (st : State) :
  ascii_text addr = true →
  plain_name addr = true →
  plain_name (toLowerCase addr) = true →
  truthy_get addr (_injected st) = None →
  has addr (_initCache st) = false →
  get (toLowerCase addr) (geocodeCache st) = None →
  let item := {| item_query := new_GeocodeQuery addr; item_then := then_ |} in
  ∃ st', query_then cfg addr then_ st = Some st'
    ∧ ((Z.of_nat (MaxAzureRequest cfg) ≤ activeRequests st)%Z →
         geocodeQueue st' = geocodeQueue st ++ [item]
         ∧ dispatched st' = dispatched st
         ∧ fetching st' = fetching st
         ∧ activeRequests st' = activeRequests st
         ∧ delivered st' = delivered st)
    ∧ ((activeRequests st < Z.of_nat (MaxAzureRequest cfg))%Z →
       geocodeQueue st = [] →
         geocodeQueue st' = []
         ∧ dispatched st' = dispatched st ++ [item]
         ∧ fetching st' = fetching st ++ [item]
         ∧ activeRequests st' = (activeRequests st + 1)%Z
         ∧ delivered st' = delivered st).
Proof.
  intros _ _ _ Hinj Hsnap Hmiss item. unfold query_then. rewrite Hinj, Hsnap.
  eexists. split; [done|].
  unfold geocodeCore, findInCache.
  change (gq_key (new_GeocodeQuery addr)) with (toLowerCase addr).
  rewrite Hmiss. unfold releaseQuota. simpl. rewrite Z.sub_0_r.
  split.
  - intros Hfull. by rewrite drain_at_capacity.
  - intros Hfree ->. simpl.
    rewrite (proj2 (Z.ltb_lt _ _) Hfree). simpl.
    unfold makeRequest, findInCache. simpl. rewrite Hmiss. simpl.
    by destruct (_ <? _)%Z.
Qed.

Lemma submission_at_init_state :
  let item := {| item_query := new_GeocodeQuery "Paris"; item_then := 7 |} in
  ∃ st', query_then settings "Paris" 7 init_state = Some st'
    ∧ geocodeQueue st' = []
    ∧ dispatched st' = [item]
    ∧ fetching st' = [item]
    ∧ activeRequests st' = 1%Z
    ∧ delivered st' = [].
Proof.
  destruct (submission_dispatches_or_queues settings "Paris" 7 init_state
              eq_refl eq_refl eq_refl eq_refl eq_refl eq_refl)
    as (st' & Hq & _ & Hfree).
  exists st'. split; [exact Hq|]. apply Hfree; [simpl; lia | reflexivity].
Defined.

(** X11: in every state the module reaches no request waits while a slot
    is free: the queue is empty or the counter is at the cap. *)
Theorem no_request_waits_while_a_slot_is_free (cfg : Settings)
    (getBestResultIndexAzure : option (list AzureResult → GeocodeQuery → nat))
    (evs : list Event) :
  let st := run cfg getBestResultIndexAzure init_state evs in
  geocodeQueue st = [] ∨ activeRequests st = Z.of_nat (MaxAzureRequest cfg).
Proof.
  intros st.
  destruct (run_busy cfg getBestResultIndexAzure init_state evs) as [H|H];
    [by left | by left |].
  right. apply Z.le_antisymm; [|done].
  apply run_bound. simpl. lia.
Qed.

Section Accounting.
Variable cfg : Settings.
Variable getBestResultIndexAzure :
  option (list AzureResult → GeocodeQuery → nat).

Lemma setTimeout_spec st :
  timers (setTimeout st).2 = timers st ++ [nextTimerId st]
  ∧ (timers_wf st → timers_wf (setTimeout st).2).
Proof.
  split; [done|]. intros [Hnd Hlt]. unfold timers_wf. simpl. split.
  - apply list.NoDup_app. split_and!; [done| |apply NoDup_singleton].
    intros t Ht ->%list_elem_of_singleton.
    rewrite Forall_forall in Hlt. specialize (Hlt _ Ht). lia.
  - apply Forall_app. split.
    + eapply Forall_impl; [done|]. simpl. lia.
    + constructor; [lia | constructor].
Qed.

Lemma makeRequest_held item st :
  timers_wf st →
  timers_wf (makeRequest item st)
  ∧ held (makeRequest item st) = S (held st)
  ∧ List.length (delivered (makeRequest item st))
      + List.length (fetching (makeRequest item st))
    = S (List.length (delivered st) + List.length (fetching st)).
Proof.
  intros Hwf. unfold makeRequest, findInCache, held. simpl.
  destruct (get _ _); simpl.
  - split_and!.
    + by apply (setTimeout_spec st).
    + rewrite length_app. simpl. lia.
    + rewrite length_app. simpl. lia.
  - split_and!; [done|..]; rewrite length_app; simpl; lia.
Qed.

Lemma drain_held queue st :
  timers_wf st →
  timers_wf (drain cfg queue st)
  ∧ (Z.of_nat (held (drain cfg queue st)) - activeRequests (drain cfg queue st)
     = Z.of_nat (held st) - activeRequests st)%Z
  ∧ List.length (delivered (drain cfg queue st))
      + List.length (geocodeQueue (drain cfg queue st))
      + List.length (fetching (drain cfg queue st))
    = List.length (delivered st) + List.length queue + List.length (fetching st).
Proof.
  revert st. induction queue as [|item queue IH]; intros st Hwf; simpl.
  - destruct (_ <? _)%Z; simpl; (split_and!; [done|done|unfold held; simpl; lia]).
  - destruct (_ <? _)%Z; [|split_and!; [done|done|simpl; lia]].
    pose (st1 := with_geocodeQueue queue
                   (with_activeRequests (activeRequests st + 1) st)).
    destruct (makeRequest_held item st1) as (Hwf1 & Hheld & Htot); [done|].
    destruct (makeRequest_frame item st1) as (Hact & _).
    destruct (IH (makeRequest item st1) Hwf1) as (Hwf2 & Hheld2 & Htot2).
    fold st1. split_and!; [done| |].
    + rewrite Hheld2, Hheld, Hact. unfold held, st1. simpl. lia.
    + rewrite Htot2. simpl in Htot. lia.
Qed.

Lemma completeRequest_held item error coordinate st :
  timers (completeRequest cfg item error coordinate st)
    = timers st ++ [nextTimerId st]
  ∧ dequeueTimeoutId (completeRequest cfg item error coordinate st)
    = Some (nextTimerId st)
  ∧ (timers_wf st → timers_wf (completeRequest cfg item error coordinate st)).
Proof.
  unfold completeRequest. simpl.
  destruct error, coordinate; simpl; (split_and!; [done|done|]);
    apply (setTimeout_spec st).
Qed.

Lemma settle_held item outcome st :
  timers (settle cfg getBestResultIndexAzure item outcome st)
    = timers st ++ [nextTimerId st]
  ∧ dequeueTimeoutId (settle cfg getBestResultIndexAzure item outcome st)
    = Some (nextTimerId st)
  ∧ (timers_wf st → timers_wf (settle cfg getBestResultIndexAzure item outcome st)).
Proof.
  unfold settle, on_catch, on_data.
  destruct outcome as [| | |[[|best rest]|]];
    try apply completeRequest_held.
  destruct getBestResultIndexAzure as [f|]; [|apply completeRequest_held].
  destruct (_ !! _) as [b|]; [|apply completeRequest_held].
  destruct (res_position b) as [pos|]; [|apply completeRequest_held].
  exact (completeRequest_held item None (Some (List.length (heap st)))
           (with_heap (heap st ++ [coord_of b pos (gq_query (item_query item))]) st)).
Qed.

Lemma length_filter_out (ts : list nat) (id : nat) :
  NoDup ts → id ∈ ts →
  S (List.length (List.filter (λ t, negb (Nat.eqb t id)) ts)) = List.length ts.
Proof.
  induction ts as [|t ts IH]; intros Hnd Hin.
  - by apply elem_of_nil in Hin.
  - apply list.NoDup_cons in Hnd as [Ht Hnd]. simpl.
    destruct (Nat.eqb_spec t id) as [->|Hne]; simpl.
    + f_equal. clear IH Hin. induction ts as [|t' ts IH]; [done|].
      apply not_elem_of_cons in Ht as [Hne Ht].
      apply list.NoDup_cons in Hnd as [_ Hnd]. simpl.
      destruct (Nat.eqb_spec t' id) as [->|_]; [done|]. simpl.
      by rewrite IH.
    + rewrite IH; [done|done|].
      apply elem_of_cons in Hin as [->|?]; done.
Qed.

Lemma filter_out_wf (ts : list nat) (id next : nat) :
  NoDup ts ∧ Forall (λ t, t < next) ts →
  NoDup (List.filter (λ t, negb (Nat.eqb t id)) ts)
  ∧ Forall (λ t, t < next) (List.filter (λ t, negb (Nat.eqb t id)) ts).
Proof.
  intros [Hnd Hlt]. induction ts as [|t ts IH]; simpl; [done|].
  apply list.NoDup_cons in Hnd as [Ht Hnd].
  apply Forall_cons in Hlt as [Hlt Hlts].
  destruct (IH Hnd Hlts) as [IH1 IH2].
  destruct (negb _); [|done]. split.
  - apply list.NoDup_cons. split; [|done].
    rewrite list_elem_of_In, List.filter_In, <- list_elem_of_In. tauto.
  - by constructor.
Qed.

Lemma length_without (A : Type) (l : list A) (i : nat) (x : A) :
  l !! i = Some x → S (List.length (take i l ++ drop (S i) l)) = List.length l.
Proof.
  intros H. apply lookup_lt_Some in H.
  rewrite length_app, length_take, length_drop. lia.
Qed.

(** Without [reset], the counter is the number of slots held, and the
    requests accounted for are those accepted. *)
Lemma step_accounting st ev :
  ev ≠ EReset →
  timers_wf st →
  let st' := step cfg getBestResultIndexAzure st ev in
  timers_wf st'
  ∧ (Z.of_nat (held st') - activeRequests st'
     = Z.of_nat (held st) - activeRequests st)%Z
  ∧ accounted st' = accounted st + accepted cfg getBestResultIndexAzure st [ev].
Proof.
  intros Hev Hwf. unfold accounted.
  destruct ev as [v|locs r|w|locs|addr|addr cb|id|i outcome|]; simpl;
    try (split_and!; [done|done|lia]).
  - unfold initCache. destruct (copy _ _). simpl. split_and!; [done|done|lia].
  - unfold query.
    repeat (destruct (truthy_get _ _) || destruct (get _ _)); simpl;
      (split_and!; [done|done|lia]).
  - unfold query_then.
    destruct (truthy_get addr (_injected st)); simpl.
    { split_and!; [done|done|]. rewrite length_app. simpl. lia. }
    destruct (has _ _).
    { destruct (truthy_get _ _); simpl; (split_and!; [done|done|]);
        rewrite ?length_app; simpl; lia. }
    simpl. unfold geocodeCore, findInCache.
    destruct (get _ _); simpl.
    { split_and!; [done|done|]. rewrite length_app. simpl. lia. }
    unfold releaseQuota. simpl.
    match goal with
    | |- context [drain cfg ?q ?s] =>
        destruct (drain_held q s) as (Hwf' & Hheld & Htot); [done|]
    end.
    split_and!; [done| |].
    + rewrite Hheld. unfold held. simpl. lia.
    + rewrite Htot, length_app. simpl. lia.
  - case_bool_decide as Hin; [|split_and!; [done|done|lia]].
    destruct Hwf as [Hnd Hlt].
    pose proof (length_filter_out (timers st) id Hnd Hin) as Hlen.
    unfold releaseQuota. simpl.
    match goal with
    | |- context [drain cfg ?q ?s] =>
        destruct (drain_held q s) as (Hwf' & Hheld & Htot)
    end.
    { by apply filter_out_wf. }
    split_and!; [done| |].
    + rewrite Hheld. unfold held. simpl. lia.
    + rewrite Htot. simpl. lia.
  - destruct (fetching st !! i) as [item|] eqn:E; [|split_and!; [done|done|lia]].
    pose proof (length_without _ _ _ _ E) as Hlen.
    pose (st1 := with_fetching (take i (fetching st) ++ drop (S i) (fetching st)) st).
    destruct (settle_held item outcome st1) as (Ht & _ & Hwf').
    destruct (settle_frame cfg getBestResultIndexAzure item outcome st1)
      as (Ha & Hq & _ & Hf & _).
    destruct (settle_delivers cfg getBestResultIndexAzure item outcome st1)
      as (d & Hd & _).
    fold st1. split_and!; [by apply Hwf'| |].
    + unfold held. rewrite Ha, Hf, Ht, length_app. unfold st1. simpl. lia.
    + rewrite Hd, Hq, Hf, length_app. unfold st1. simpl. lia.
  - done.
Qed.

Lemma accepted_cons st ev evs :
  accepted cfg getBestResultIndexAzure st (ev :: evs)
  = accepted cfg getBestResultIndexAzure st [ev]
    + accepted cfg getBestResultIndexAzure
        (step cfg getBestResultIndexAzure st ev) evs.
Proof. simpl. lia. Qed.

Lemma run_accounting st evs :
  Forall (λ ev, ev ≠ EReset) evs →
  timers_wf st →
  let st' := run cfg getBestResultIndexAzure st evs in
  timers_wf st'
  ∧ (Z.of_nat (held st') - activeRequests st'
     = Z.of_nat (held st) - activeRequests st)%Z
  ∧ accounted st' = accounted st + accepted cfg getBestResultIndexAzure st evs.
Proof.
  intros Hevs. revert st.
  induction Hevs as [|ev evs Hev Hevs IH]; intros st Hwf.
  - simpl. split_and!; [done|done|lia].
  - destruct (step_accounting st ev Hev Hwf) as (Hwf1 & Hheld1 & Hacc1).
    destruct (IH _ Hwf1) as (Hwf2 & Hheld2 & Hacc2).
    rewrite accepted_cons. simpl in *. split_and!; [done|lia|lia].
Qed.
End Accounting.

(** *** Callbacks that throw *)

Section RaisingFacts.
Variable cfg : Settings.
Variable getBestResultIndexAzure :
  option (list AzureResult → GeocodeQuery → nat).
Variable raises : Delivery → option Error.

(** When the callback of an item returns normally from the calls made for
    its request, the promise chain does what [settle] does. *)
Lemma settle_raising_returning item outcome st :
  (∀ arg seen,
     raises {| d_request := gq_query (item_query item);
               d_then := item_then item; d_arg := arg; d_seen := seen |}
     = None) →
  settle_raising cfg getBestResultIndexAzure raises item outcome st
  = settle cfg getBestResultIndexAzure item outcome st.
Proof.
  intros Hret.
  unfold settle_raising, settle, on_catch_raising, on_catch, on_data_raising,
    on_data, completeRequest_raising, completeRequest, call_then_raising.
  destruct outcome as [| | |[[|best rest]|]]; simpl; rewrite ?Hret; try done.
  destruct getBestResultIndexAzure as [f|]; [|done].
  destruct (_ !! _) as [b|]; [|done].
  destruct (res_position b) as [pos|]; [|done].
  simpl. by rewrite Hret.
Qed.

Hypothesis quiet_callbacks : ∀ d, raises d = None.

Lemma makeRequest_raising_quiet item st :
  makeRequest_raising raises item st = (makeRequest item st, None).
Proof.
  unfold makeRequest_raising, makeRequest, call_then_raising.
  destruct (findInCache _ _) as [[cached|] st']; simpl; [|done].
  by rewrite quiet_callbacks.
Qed.

Lemma drain_raising_quiet queue st :
  drain_raising cfg raises queue st = (drain cfg queue st, None).
Proof.
  revert st. induction queue as [|item queue IH]; intros st; simpl.
  - by destruct (_ <? _)%Z.
  - destruct (_ <? _)%Z; [|done]. by rewrite makeRequest_raising_quiet, IH.
Qed.

Lemma query_then_raising_quiet addr then_ st :
  query_then_raising cfg raises addr then_ st
  = match query_then cfg addr then_ st with
    | Some st' => (st', None)
    | None => (st, Some TypeError)
    end.
Proof.
  unfold query_then_raising, query_then, geocodeCore_raising, geocodeCore,
    releaseQuota_raising, releaseQuota, call_then_raising.
  destruct (truthy_get addr (_injected st)); [by rewrite quiet_callbacks|].
  destruct (has _ _).
  { destruct (truthy_get _ _); [by rewrite quiet_callbacks | done]. }
  destruct (findInCache _ _) as [[result|] st']; [by rewrite quiet_callbacks|].
  by rewrite drain_raising_quiet.
Qed.

Lemma step_raising_quiet st ev :
  step_raising cfg getBestResultIndexAzure raises st ev
  = step cfg getBestResultIndexAzure st ev.
Proof.
  destruct ev as [v|locs r|w|locs|addr|addr cb|id|i outcome|]; simpl; try done.
  - rewrite query_then_raising_quiet. by destruct (query_then _ _ _ _).
  - case_bool_decide; [|done].
    unfold releaseQuota_raising, releaseQuota. by rewrite drain_raising_quiet.
  - destruct (_ !! _) as [item|]; [|done].
    apply settle_raising_returning. intros. apply quiet_callbacks.
Qed.

Lemma run_raising_quiet st evs :
  run_raising cfg getBestResultIndexAzure raises st evs
  = run cfg getBestResultIndexAzure st evs.
Proof.
  revert st. induction evs as [|ev evs IH]; intros st; simpl; [done|].
  by rewrite step_raising_quiet, <- IH.
Qed.

Lemma accepted_raising_quiet st evs :
  accepted_raising cfg getBestResultIndexAzure raises st evs
  = accepted cfg getBestResultIndexAzure st evs.
Proof.
  revert st. induction evs as [|ev evs IH]; intros st; simpl; [done|].
  rewrite step_raising_quiet, IH. f_equal.
  destruct ev; try done.
  rewrite query_then_raising_quiet. by destruct (query_then _ _ _ _).
Qed.
End RaisingFacts.

Section TwoCompletions.
Variable cfg : Settings.
Variable getBestResultIndexAzure :
  option (list AzureResult → GeocodeQuery → nat).
Variable raises : Delivery → option Error.

(** A release that finds the queue empty only decrements the counter. *)
Lemma timer_fires_on_empty_queue st id :
  id ∈ timers st → geocodeQueue st = [] →
  let st' := step_raising cfg getBestResultIndexAzure raises st (ETimer id) in
  activeRequests st' = (activeRequests st - 1)%Z
  ∧ geocodeQueue st' = []
  ∧ timers st' = List.filter (λ t, negb (Nat.eqb t id)) (timers st).
Proof.
  intros Hid Hq. simpl. rewrite bool_decide_true by done.
  unfold releaseQuota_raising. simpl. rewrite Hq. simpl.
  by destruct (_ <? _)%Z.
Qed.

(** Two timers set one after the other both fire. *)
Lemma two_timers_fire st ts n :
  timers st = ts ++ [n; S n] →
  geocodeQueue st = [] →
  activeRequests
    (run_raising cfg getBestResultIndexAzure raises st [ETimer n; ETimer (S n)])
  = (activeRequests st - 2)%Z.
Proof.
  intros Hts' Hq.
  assert (n ∈ timers st) as Hn.
  { rewrite Hts'. apply elem_of_app. right. left. }
  destruct (timer_fires_on_empty_queue st n Hn Hq) as (Ha1 & Hq1 & Ht1).
  assert (S n ∈ timers
            (step_raising cfg getBestResultIndexAzure raises st (ETimer n)))
    as Hn1.
  { rewrite Ht1, Hts', list_elem_of_In, List.filter_In, <- list_elem_of_In.
    split.
    - apply elem_of_app. right. right. left.
    - apply negb_true_iff, Nat.eqb_neq. lia. }
  destruct (timer_fires_on_empty_queue _ (S n) Hn1 Hq1) as (Ha2 & _).
  change (run_raising cfg getBestResultIndexAzure raises st
            [ETimer n; ETimer (S n)])
    with (step_raising cfg getBestResultIndexAzure raises
            (step_raising cfg getBestResultIndexAzure raises st (ETimer n))
            (ETimer (S n))).
  cbv zeta in Ha1, Ha2. rewrite Ha2, Ha1. lia.
Qed.
End TwoCompletions.

(** X12: as long as [reset] is not called and no callback throws, the
    counter of in-flight requests is exactly the number of requests handed
    to [fetch] and not settled plus the number of releases scheduled and
    not yet run; so it never falls below zero. *)
Theorem activeRequests_counts_held_slots (cfg : Settings)
    (getBestResultIndexAzure : option (list AzureResult → GeocodeQuery → nat))
    (raises : Delivery → option Error) (evs : list Event) :
  (∀ d, raises d = None) →
  Forall (λ ev, ev ≠ EReset) evs →
  let st := run_raising cfg getBestResultIndexAzure raises init_state evs in
  activeRequests st
  = Z.of_nat (List.length (fetching st) + List.length (timers st))
  ∧ (0 ≤ activeRequests st)%Z.
Proof.
  intros Hquiet Hevs st. subst st. rewrite run_raising_quiet by done.
  destruct (run_accounting cfg getBestResultIndexAzure init_state evs Hevs)
    as (_ & Hheld & _).
  { split; constructor. }
  unfold held in Hheld. simpl in Hheld. lia.
Qed.

Lemma activeRequests_after_nine_requests :
  let st :=
    run_raising settings module_scope quiet init_state nine_requests_one_failed in
  List.length (fetching st) = 5
  ∧ List.length (timers st) = 1
  ∧ activeRequests st
    = Z.of_nat (List.length (fetching st) + List.length (timers st))
  ∧ (0 ≤ activeRequests st)%Z.
Proof.
  split; [reflexivity|]. split; [reflexivity|].
  apply (activeRequests_counts_held_slots settings module_scope quiet
           nine_requests_one_failed).
  - reflexivity.
  - unfold nine_requests_one_failed, nine_requests. simpl.
    repeat (constructor; [discriminate|]). constructor.
Defined.

(** X13: when a request in flight settles, whatever the outcome, and its
    callback returns normally, the callback is called exactly once in that
    turn; the release of its slot is only scheduled (a new timer, recorded
    in [dequeueTimeoutId]), so the counter, the queue and the dispatched
    items are as before. *)
Theorem settled_request_is_answered_once (cfg : Settings)
    (getBestResultIndexAzure : option (list AzureResult → GeocodeQuery → nat))
    (raises : Delivery → option Error)
    (st : State) (i : nat) (item : IGeocodeQueueItem) (outcome : FetchOutcome) :
  fetching st !! i = Some item →
  (∀ arg seen,
     raises {| d_request := gq_query (item_query item);
               d_then := item_then item; d_arg := arg; d_seen := seen |}
     = None) →
  let st' :=
    step_raising cfg getBestResultIndexAzure raises st (ESettle i outcome) in
  (∃ d, delivered st' = delivered st ++ [d]
        ∧ d_then d = item_then item
        ∧ d_request d = gq_query (item_query item))
  ∧ fetching st' = take i (fetching st) ++ drop (S i) (fetching st)
  ∧ timers st' = timers st ++ [nextTimerId st]
  ∧ dequeueTimeoutId st' = Some (nextTimerId st)
  ∧ activeRequests st' = activeRequests st
  ∧ geocodeQueue st' = geocodeQueue st
  ∧ dispatched st' = dispatched st.
Proof.
  intros Hitem Hret. simpl. rewrite Hitem.
  rewrite settle_raising_returning by done.
  pose (st1 := with_fetching (take i (fetching st) ++ drop (S i) (fetching st)) st).
  destruct (settle_held cfg getBestResultIndexAzure item outcome st1)
    as (Ht & Hid & _).
  destruct (settle_frame cfg getBestResultIndexAzure item outcome st1)
    as (Ha & Hq & Hdi & Hf & _).
  destruct (settle_delivers cfg getBestResultIndexAzure item outcome st1)
    as (d & Hd & Hthen & Hreq).
  fold st1. split_and!; try done. by exists d.
Qed.

Lemma settled_request_is_answered_once_at_init :
  let st := run settings module_scope init_state [EQueryThen "Paris" 7] in
  let st' := step_raising settings module_scope quiet st (ESettle 0 FetchNotOk) in
  (∃ d, delivered st' = delivered st ++ [d]
        ∧ d_then d = 7 ∧ d_request d = "Paris")
  ∧ fetching st' = []
  ∧ timers st' = [1]
  ∧ dequeueTimeoutId st' = Some 1
  ∧ activeRequests st' = 1%Z
  ∧ geocodeQueue st' = []
  ∧ dispatched st' = dispatched st.
Proof.
  exact (settled_request_is_answered_once settings module_scope quiet
           (run settings module_scope init_state [EQueryThen "Paris" 7])
           0 paris_item FetchNotOk eq_refl (λ _ _, eq_refl)).
Defined.

(** X14: as long as [reset] is not called and no callback throws, no
    request is lost and none is answered twice: the callbacks called, the
    items queued and the requests in flight together number the calls
    [query(addr, then)] that returned normally. *)
Theorem requests_are_conserved (cfg : Settings)
    (getBestResultIndexAzure : option (list AzureResult → GeocodeQuery → nat))
    (raises : Delivery → option Error) (evs : list Event) :
  (∀ d, raises d = None) →
  Forall (λ ev, ev ≠ EReset) evs →
  let st := run_raising cfg getBestResultIndexAzure raises init_state evs in
  List.length (delivered st) + List.length (geocodeQueue st)
    + List.length (fetching st)
  = accepted_raising cfg getBestResultIndexAzure raises init_state evs.
Proof.
  intros Hquiet Hevs st. subst st.
  rewrite run_raising_quiet, accepted_raising_quiet by done.
  destruct (run_accounting cfg getBestResultIndexAzure init_state evs Hevs)
    as (_ & _ & Hacc).
  { split; constructor. }
  exact Hacc.
Qed.

Lemma nine_requests_are_conserved :
  let st :=
    run_raising settings module_scope quiet init_state nine_requests_one_failed in
  accepted_raising settings module_scope quiet init_state
    nine_requests_one_failed = 9
  ∧ List.length (delivered st) + List.length (geocodeQueue st)
      + List.length (fetching st)
    = accepted_raising settings module_scope quiet init_state
        nine_requests_one_failed.
Proof.
  split; [reflexivity|].
  apply (requests_are_conserved settings module_scope quiet
           nine_requests_one_failed).
  - reflexivity.
  - unfold nine_requests_one_failed, nine_requests. simpl.
    repeat (constructor; [discriminate|]). constructor.
Defined.

(** X16: a callback that throws when the handler of the parsed body calls
    it — with [undefined] for an empty result, with the location for a
    chosen candidate — is called a second time, with [undefined], by the
    [catch] handler, and a second release is scheduled for the one slot
    the request held: [completeRequest] runs twice. Only the second timer
    is recorded. A location found is cached all the same. When the two
    releases have run on an empty queue the counter is two lower. *)
Theorem throwing_callback_is_called_twice (cfg : Settings)
    (getBestResultIndexAzure : option (list AzureResult → GeocodeQuery → nat))
    (raises : Delivery → option Error)
    (st : State) (i : nat) (item : IGeocodeQueueItem) :
  fetching st !! i = Some item →
  let n := nextTimerId st in
  let text := gq_query (item_query item) in
  (∀ results err,
     results = None ∨ results = Some [] →
     raises (absent item) = Some err →
     let st' :=
       step_raising cfg getBestResultIndexAzure raises st
         (ESettle i (FetchJson results)) in
     delivered st' = delivered st ++ [absent item; absent item]
     ∧ timers st' = timers st ++ [n; S n]
     ∧ dequeueTimeoutId st' = Some (S n)
     ∧ activeRequests st' = activeRequests st
     ∧ geocodeCache st' = geocodeCache st
     ∧ (geocodeQueue st = [] →
          activeRequests
            (run_raising cfg getBestResultIndexAzure raises st'
               [ETimer n; ETimer (S n)])
          = (activeRequests st - 2)%Z))
  ∧ (∀ f results best pos err,
       getBestResultIndexAzure = Some f →
       results ≠ [] →
       results !! f results (item_query item) = Some best →
       res_position best = Some pos →
       let found :=
         {| d_request := text; d_then := item_then item;
            d_arg := Some (List.length (heap st));
            d_seen := Some (coord_of best pos text) |} in
       raises found = Some err →
       let st' :=
         step_raising cfg getBestResultIndexAzure raises st
           (ESettle i (FetchJson (Some results))) in
       delivered st' = delivered st ++ [found; absent item]
       ∧ timers st' = timers st ++ [n; S n]
       ∧ dequeueTimeoutId st' = Some (S n)
       ∧ activeRequests st' = activeRequests st
       ∧ (cache_coordinate <$> get (gq_key (item_query item)) (geocodeCache st'))
         = Some (List.length (heap st))
       ∧ (geocodeQueue st = [] →
            activeRequests
              (run_raising cfg getBestResultIndexAzure raises st'
                 [ETimer n; ETimer (S n)])
            = (activeRequests st - 2)%Z)).
Proof.
  intros Hitem n text. split.
  - intros results err Hempty Hraise st'.
    assert (st' = (completeRequest_raising cfg raises item (inl err)
                     (completeRequest_raising cfg raises item (inl ERROR_EMPTY)
                        (with_fetching
                           (take i (fetching st) ++ drop (S i) (fetching st))
                           st)).1).1) as Hst'.
    { subst st'. simpl. rewrite Hitem.
      unfold settle_raising, on_data_raising, on_catch_raising.
      destruct Hempty as [-> | ->];
        unfold completeRequest_raising at 2, call_then_raising; simpl;
        unfold absent in Hraise; rewrite Hraise; done. }
    assert (timers st' = timers st ++ [n; S n]) as Htimers.
    { rewrite Hst'. simpl. by rewrite <- app_assoc. }
    split_and!; [| done | by rewrite Hst' | by rewrite Hst' | by rewrite Hst' |].
    + rewrite Hst'. simpl. by rewrite <- app_assoc.
    + intros Hq.
      replace (activeRequests st) with (activeRequests st') by by rewrite Hst'.
      apply (two_timers_fire _ _ _ st' (timers st)); [done|]. by rewrite Hst'.
  - intros f results best pos err Hf Hne Hbest Hpos found Hraise st'.
    assert (st' = (completeRequest_raising cfg raises item (inl err)
                     (completeRequest_raising cfg raises item
                        (inr (List.length (heap st)))
                        (with_heap (heap st ++ [coord_of best pos text])
                           (with_fetching
                              (take i (fetching st) ++ drop (S i) (fetching st))
                              st))).1).1) as Hst'.
    { subst st'. simpl. rewrite Hitem.
      destruct results as [|r rs]; [done|].
      unfold settle_raising, on_data_raising, on_catch_raising.
      rewrite Hf, Hbest, Hpos. unfold alloc. simpl.
      rewrite list_lookup_alter, decide_True by done.
      rewrite lookup_app_r, Nat.sub_diag by lia. simpl.
      match goal with
      | |- context [raises ?d] => change (raises d) with (raises found)
      end.
      by rewrite Hraise. }
    assert (timers st' = timers st ++ [n; S n]) as Htimers.
    { rewrite Hst'. simpl. by rewrite <- app_assoc. }
    split_and!; [| done | by rewrite Hst' | by rewrite Hst' | |].
    + rewrite Hst'. simpl.
      rewrite list_lookup_alter, decide_True by done.
      rewrite lookup_app_r, Nat.sub_diag by lia. simpl.
      by rewrite <- app_assoc.
    + rewrite Hst'. simpl. by rewrite get_cacheQuery, decide_True.
    + intros Hq.
      replace (activeRequests st) with (activeRequests st') by by rewrite Hst'.
      apply (two_timers_fire _ _ _ st' (timers st)); [done|]. by rewrite Hst'.
Qed.

Lemma throwing_callback_is_called_twice_at_init :
  let st := run settings module_scope init_state [EQueryThen "Nowhere" 7] in
  let item := {| item_query := new_GeocodeQuery "Nowhere"; item_then := 7 |} in
  let st' :=
    step_raising settings module_scope always_raises st
      (ESettle 0 (FetchJson (Some []))) in
  fetching st = [item]
  ∧ delivered st' = [absent item; absent item]
  ∧ timers st' = [1; 2]
  ∧ dequeueTimeoutId st' = Some 2
  ∧ activeRequests st' = 1%Z
  ∧ activeRequests
      (run_raising settings module_scope always_raises st' [ETimer 1; ETimer 2])
    = (-1)%Z.
Proof.
  destruct (throwing_callback_is_called_twice settings module_scope always_raises
              (run settings module_scope init_state [EQueryThen "Nowhere" 7])
              0 {| item_query := new_GeocodeQuery "Nowhere"; item_then := 7 |}
              eq_refl) as [Hempty _].
  destruct (Hempty (Some []) TypeError (or_intror eq_refl) eq_refl)
    as (Hd & Ht & Hid & Ha & _ & Hrun).
  split_and!; [reflexivity | exact Hd | exact Ht | exact Hid | exact Ha |].
  exact (Hrun eq_refl).
Defined.



(** ** [reset] *)

(** X15: [reset] clears only the adaptive cache, the queue, the counter and
    the recorded timer: the override store, the snapshot, the locations and
    the requests in flight are untouched, and no callback is called. A
    second [reset] changes nothing more. *)
Theorem reset_is_idempotent_and_keeps_stores (st : State) :
  reset (reset st) = reset st
  ∧ _injected (reset st) = _injected st
  ∧ _initCache (reset st) = _initCache st
  ∧ heap (reset st) = heap st
  ∧ fetching (reset st) = fetching st
  ∧ dispatched (reset st) = dispatched st
  ∧ delivered (reset st) = delivered st
  ∧ timers (reset st) ⊆ timers st.
Proof.
  unfold reset, clearTimeout. simpl.
  destruct (dequeueTimeoutId st) as [t|]; simpl; split_and!; try done.
  intros x. rewrite !list_elem_of_In, List.filter_In. tauto.
Qed.

(** ** The keys of the cache *)

Section NormalisedKeys.
Variable cfg : Settings.
Variable getBestResultIndexAzure :
  option (list AzureResult → GeocodeQuery → nat).

Let entries_ok (cache : obj IGeocodeCache) : Prop :=
  ∀ k entry, get k cache = Some entry →
    k = gq_key (cache_query entry) ∧ normalised (cache_query entry).

Lemma entries_ok_hit cache k entry :
  entries_ok cache → get k cache = Some entry → entries_ok (hit k entry cache).
Proof.
  intros Hok Hget k' e'. unfold hit.
  destruct (decide (k' = k)) as [->|Hne].
  - rewrite get_set_eq. intros [= <-]. simpl. by apply Hok.
  - rewrite get_set_ne by done. apply Hok.
Qed.

Lemma entries_ok_cacheQuery cache q c :
  entries_ok cache → normalised q → entries_ok (cacheQuery cfg q c cache).
Proof.
  intros Hok Hq k e. rewrite get_cacheQuery.
  destruct (decide (k = gq_key q)) as [->|Hne].
  - by intros [= <-].
  - destruct (bool_decide _); [done|]. apply Hok.
Qed.

Lemma findInCache_normalised q st :
  keys_normalised st → keys_normalised (findInCache q st).2.
Proof.
  intros (Hc & Hq & Hf). unfold findInCache.
  destruct (get _ _) as [entry|] eqn:E; simpl; [|done].
  split_and!; [|done|done]. by apply entries_ok_hit.
Qed.

Lemma makeRequest_normalised item st :
  normalised (item_query item) →
  keys_normalised st → keys_normalised (makeRequest item st).
Proof.
  intros Hitem Hst. unfold makeRequest.
  pose proof (findInCache_normalised (item_query item)
                (with_dispatched (dispatched st ++ [item]) st) Hst) as H.
  destruct (findInCache _ _) as [[cached|] st']; simpl in *.
  - done.
  - destruct H as (Hc & Hq & Hf). split_and!; [done|done|].
    simpl. apply Forall_app. split; [done | by constructor].
Qed.

Lemma drain_normalised queue st :
  Forall (λ item, normalised (item_query item)) queue →
  keys_normalised st → keys_normalised (drain cfg queue st).
Proof.
  intros Hqueue. revert st.
  induction Hqueue as [|item queue Hitem Hqueue IH]; intros st (Hc & Hq & Hf);
    simpl.
  - destruct (_ <? _)%Z; (split_and!; simpl; [done|constructor|done]).
  - destruct (_ <? _)%Z.
    + apply IH. apply makeRequest_normalised; [done|]. by split_and!.
    + split_and!; simpl; [done|by constructor|done].
Qed.

Lemma completeRequest_normalised item error coordinate st :
  normalised (item_query item) →
  keys_normalised st →
  keys_normalised (completeRequest cfg item error coordinate st).
Proof.
  intros Hitem (Hc & Hq & Hf). unfold completeRequest. simpl.
  destruct error as [err|], coordinate as [c|]; simpl;
    (split_and!; [|done|done]); simpl; try done.
  by apply entries_ok_cacheQuery.
Qed.

Lemma settle_normalised item outcome st :
  normalised (item_query item) →
  keys_normalised st →
  keys_normalised (settle cfg getBestResultIndexAzure item outcome st).
Proof.
  intros Hitem Hst. unfold settle, on_catch, on_data.
  destruct outcome as [| | |[[|best rest]|]];
    try by apply completeRequest_normalised.
  destruct getBestResultIndexAzure as [f|]; [|by apply completeRequest_normalised].
  destruct (_ !! _) as [b|]; [|by apply completeRequest_normalised].
  destruct (res_position b) as [pos|]; [|by apply completeRequest_normalised].
  by apply (completeRequest_normalised item None (Some (List.length (heap st)))
              (with_heap (heap st ++ [coord_of b pos (gq_query (item_query item))]) st)).
Qed.

Lemma step_normalised st ev :
  keys_normalised st →
  keys_normalised (step cfg getBestResultIndexAzure st ev).
Proof.
  intros Hst.
  destruct ev as [v|locs r|w|locs|addr|addr cb|id|i outcome|]; simpl; try done.
  - unfold initCache. by destruct (copy _ _).
  - destruct Hst as (Hc & Hq & Hf). unfold query.
    destruct (truthy_get _ _); [done|]. destruct (truthy_get _ _); [done|].
    destruct (get _ _) as [entry|] eqn:E; simpl; [|done].
    split_and!; [|done|done]. by apply entries_ok_hit.
  - unfold query_then.
    destruct (truthy_get _ _); [done|].
    destruct (has _ _); [by destruct (truthy_get _ _)|].
    simpl. unfold geocodeCore.
    pose proof (findInCache_normalised (new_GeocodeQuery addr) st Hst) as H.
    destruct (findInCache _ _) as [[result|] st']; simpl in *; [done|].
    destruct H as (Hc & Hq & Hf).
    unfold releaseQuota. simpl. apply drain_normalised.
    + apply Forall_app. split; [done|]. by constructor.
    + split_and!; simpl; [done| |done].
      apply Forall_app. split; [done|]. by constructor.
  - case_bool_decide; [|done]. destruct Hst as (Hc & Hq & Hf).
    unfold releaseQuota. simpl. by apply drain_normalised.
  - destruct (fetching st !! i) as [item|] eqn:E; [|done].
    destruct Hst as (Hc & Hq & Hf). apply settle_normalised.
    + rewrite Forall_forall in Hf. apply Hf. by eapply list_elem_of_lookup_2.
    + split_and!; simpl; [done|done|].
      apply Forall_app. split; [by apply Forall_take | by apply Forall_drop].
  - unfold reset, clearTimeout. simpl. destruct Hst as (Hc & Hq & Hf).
    destruct (dequeueTimeoutId st); simpl; (split_and!; simpl; [done|constructor|done]).
Qed.

Lemma run_normalised st evs :
  keys_normalised st →
  keys_normalised (run cfg getBestResultIndexAzure st evs).
Proof.
  revert st. induction evs as [|ev evs IH]; intros st Hst; simpl; [done|].
  by apply IH, step_normalised.
Qed.
End NormalisedKeys.

(** X17: in every state the module reaches by requests for ASCII
    addresses, each entry of the adaptive cache is stored under the key of
    its own query, that key is the lower-case form of the query text, and
    no key occurs twice. *)
Theorem cache_is_keyed_by_lower_case_text (cfg : Settings)
    (getBestResultIndexAzure : option (list AzureResult → GeocodeQuery → nat))
    (evs : list Event) (k : string) (entry : IGeocodeCache) :
  Forall (λ request, ascii_text request.1 = true) (requests evs) →
  let st := run cfg getBestResultIndexAzure init_state evs in
  get k (geocodeCache st) = Some entry →
  k = gq_key (cache_query entry)
  ∧ k = toLowerCase (gq_query (cache_query entry))
  ∧ wf (geocodeCache st).
Proof.
  intros _ st Hget.
  destruct (run_normalised cfg getBestResultIndexAzure init_state evs) as (Hc & _).
  { split_and!; [done | constructor | constructor]. }
  destruct (Hc k entry Hget) as [Hk Hn].
  destruct (run_cache_inv cfg getBestResultIndexAzure init_state evs) as [Hwf _].
  { split; [constructor | simpl; lia]. }
  split_and!; [done | by rewrite Hk | done].
Qed.

Lemma cache_is_keyed_by_lower_case_text_Paris :
  let st :=
    run settings (Some getBestResultIndex) init_state
      [EQueryThen "Paris" 7; ESettle 0 (FetchJson (Some [sample_result]))] in
  let entry :=
    {| cache_query := new_GeocodeQuery "Paris"; cache_coordinate := 0 |} in
  get "paris" (geocodeCache st) = Some entry
  ∧ "paris" = gq_key (cache_query entry)
  ∧ "paris" = toLowerCase (gq_query (cache_query entry))
  ∧ wf (geocodeCache st).
Proof.
  split; [reflexivity|].
  apply (cache_is_keyed_by_lower_case_text settings (Some getBestResultIndex)
           [EQueryThen "Paris" 7; ESettle 0 (FetchJson (Some [sample_result]))]
           "paris"
           {| cache_query := new_GeocodeQuery "Paris"; cache_coordinate := 0 |}).
  - by repeat constructor.
  - reflexivity.
Defined.

(** ** controller.ts *)

Lemma defaultZoom_loop_spec (levels : nat) (level min : Z) :
  (1 ≤ level)%Z → (level + Z.of_nat levels = 25)%Z →
  let z := defaultZoom_loop levels level min in
  (z ≤ 24)%Z
  ∧ (level ≤ 24 → level ≤ z)%Z
  ∧ (∀ l, level ≤ l < z → 512 * 2 ^ l ≤ min)%Z
  ∧ (z < 24 ∨ min < 512 * 2 ^ 24 → min < 512 * 2 ^ z)%Z.
Proof.
  revert level. induction levels as [|levels IH]; intros level Hlevel Hsum; simpl.
  - split_and!; [lia | lia | lia |].
    intros [?|?]; [lia|]. assert (level = 25%Z) as -> by lia. lia.
  - destruct (min <? 512 * 2 ^ level)%Z eqn:E;
      [apply Z.ltb_lt in E | apply Z.ltb_ge in E].
    + split_and!; [lia | lia | lia | done].
    + destruct (IH (level + 1)%Z) as (H1 & H2 & H3 & H4); [lia | lia |].
      split_and!; [done | | | done].
      * intros Hle. destruct levels as [|levels'].
        { simpl. lia. }
        lia.
      * intros l Hl. destruct (decide (l = level)) as [->|Hne]; [done|].
        apply H3. lia.
Qed.

Lemma defaultZoom_spec (width height : Z) :
  (defaultZoom width height ≤ 24)%Z
  ∧ (1 ≤ defaultZoom width height)%Z
  ∧ (∀ l, 1 ≤ l < defaultZoom width height → 512 * 2 ^ l ≤ Z.min width height)%Z
  ∧ (defaultZoom width height < 24 ∨ Z.min width height < 512 * 2 ^ 24 →
     Z.min width height < 512 * 2 ^ defaultZoom width height)%Z.
Proof.
  destruct (defaultZoom_loop_spec 24 1 (Z.min width height))
    as (H1 & H2 & H3 & H4); [lia|lia|].
  split_and!; [exact H1 | apply H2; lia | exact H3 | exact H4].
Qed.

(** X18: for integer sizes [defaultZoom] returns a level between 1 and 24:
    the least level from 1 on at which [512 * 2^level] exceeds the smaller
    side, and 24 when there is none below; so it does not decrease when
    the smaller side grows. *)
Theorem defaultZoom_is_least_level (width height width' height' : Z) :
  let z := defaultZoom width height in
  let min := Z.min width height in
  (1 ≤ z ≤ 24)%Z
  ∧ (∀ l, 1 ≤ l < z → 512 * 2 ^ l ≤ min)%Z
  ∧ (z < 24 ∨ min < 512 * 2 ^ 24 → min < 512 * 2 ^ z)%Z
  ∧ (min ≤ Z.min width' height' → z ≤ defaultZoom width' height')%Z.
Proof.
  intros z min.
  destruct (defaultZoom_spec width height) as (H1 & H2 & H3 & H4).
  destruct (defaultZoom_spec width' height') as (H1' & H2' & H3' & H4').
  fold z in H1, H2, H3, H4. fold min in H3, H4.
  split_and!; [done | done | done | done |].
  intros Hmin.
  destruct (decide (z ≤ defaultZoom width' height')%Z) as [|Hgt]; [done|].
  exfalso.
  assert (Z.min width' height' < 512 * 2 ^ defaultZoom width' height')%Z
    by (apply H4'; lia).
  assert (512 * 2 ^ defaultZoom width' height' ≤ min)%Z by (apply H3; lia).
  lia.
Qed.

Section BuildFacts.
Implicit Types ret f : obj FormatValue.

Lemma build_keys_spec f ret (ks : list string) :
  (∀ k, k ∈ ks → k ∈ ret.*1) →
  (foldl (build_key f) ret ks).*1 = ret.*1
  ∧ ∀ k, get k (foldl (build_key f) ret ks)
         = if bool_decide (k ∈ ks)
           then match get k f with Some v => Some v | None => get k ret end
           else get k ret.
Proof.
  revert ret. induction ks as [|k0 ks IH]; intros ret Hks; simpl; [done|].
  assert (k0 ∈ ret.*1) as Hk0 by (apply Hks; left).
  assert ((build_key f ret k0).*1 = ret.*1) as Hkeys.
  { unfold build_key. destruct (get k0 f); [|done].
    rewrite keys_set. by rewrite (proj2 (has_keys ret k0) Hk0). }
  destruct (IH (build_key f ret k0)) as [IH1 IH2].
  { intros k Hk. rewrite Hkeys. apply Hks. by right. }
  split; [by rewrite IH1|].
  intros k. rewrite IH2. destruct (decide (k = k0)) as [->|Hne].
  - rewrite (bool_decide_true (k0 ∈ k0 :: ks)) by left.
    assert (get k0 (build_key f ret k0)
            = match get k0 f with Some v => Some v | None => get k0 ret end) as ->.
    { unfold build_key. destruct (get k0 f); [apply get_set_eq | done]. }
    destruct (bool_decide _); by destruct (get k0 f).
  - rewrite (bool_decide_ext (k ∈ k0 :: ks) (k ∈ ks))
      by (rewrite elem_of_cons; tauto).
    assert (get k (build_key f ret k0) = get k ret) as ->; [|done].
    unfold build_key. destruct (get k0 f); [by apply get_set_ne | done].
Qed.

Lemma build_format_spec ret f :
  (build_format ret f).*1 = ret.*1
  ∧ ∀ k, get k (build_format ret f) = (λ v, default v (get k f)) <$> get k ret.
Proof.
  destruct (build_keys_spec f ret (Object_keys ret)) as [H1 H2].
  { intros k. by rewrite elem_of_Object_keys. }
  split; [done|]. intros k. unfold build_format. rewrite H2.
  destruct (get k ret) as [v|] eqn:E; simpl.
  - rewrite bool_decide_true
      by (apply elem_of_Object_keys; by eapply get_Some_keys).
    by destruct (get k f).
  - rewrite bool_decide_false; [done|].
    rewrite elem_of_Object_keys. by apply get_None_keys.
Qed.

Lemma build_formats_spec ret (fs : list (obj FormatValue)) :
  (foldl build_format ret fs).*1 = ret.*1
  ∧ ∀ k, get k (foldl build_format ret fs)
         = (λ v, foldl (λ v f, default v (get k f)) v fs) <$> get k ret.
Proof.
  revert ret. induction fs as [|f fs IH]; intros ret; simpl.
  - split; [done|]. intros k. by destruct (get k ret).
  - destruct (build_format_spec ret f) as [H1 H2].
    destruct (IH (build_format ret f)) as [IH1 IH2].
    split; [by rewrite IH1|].
    intros k. rewrite IH2, H2. by destruct (get k ret).
Qed.
End BuildFacts.

(** X19: [MapFormat.build] returns a format with exactly the fields of a
    new [MapFormat], in the same order: a field a given format has takes
    its value from the last such format, another field keeps its default,
    and a key that is not a field of [MapFormat] is never copied. *)
Theorem MapFormat_build_takes_last_given
    (fmts : list (option (obj FormatValue))) (k : string) :
  (MapFormat_build fmts).*1 = new_MapFormat.*1
  ∧ get k (MapFormat_build fmts) = last_given k fmts <$> get k new_MapFormat.
Proof.
  unfold MapFormat_build, last_given.
  destruct (build_formats_spec new_MapFormat (omap id fmts)) as [H1 H2].
  split; [done | apply H2].
Qed.
